(** * rhea: the AMQP 1.0 connection core ([lib/connection.js])

    A shallow embedding of [Connection] and of the functions on its
    prototype, with the properties of the frame reassembler, the channel
    multiplexer, the lifecycle driver and the dispatch bridge.

    The connection object is a record; every method is a function from
    the connection before the call to the connection after it.  A method
    that can throw returns a [result], which keeps the connection as it
    was when the exception left the method (JavaScript does not undo the
    assignments made before a throw).

    The collaborators that [connection.js] requires ([frames.js],
    [endpoint.js], [session.js]) are interfaces here: type classes whose
    operations the connection calls.  A call that leaves the connection (to
    the socket, a listener, the container, a session) is recorded in the
    order it is made; such a call returns normally and does not call back
    into the connection while it runs.  The codec is the exception: reading
    a header or a frame may throw. *)

From stdpp Require Import gmap strings list fin_maps pretty sorting.
From Stdlib Require Import Strings.Byte.

Open Scope string_scope.
Open Scope list_scope.

(** ** Values exchanged with the codec *)

(** A Node [Buffer]: a sequence of bytes. *)
Abbreviation Buffer := (list byte).

(** The four fields of the 8-byte protocol header. *)
Record Header := {
  protocol_id : nat;
  major : nat;
  minor : nat;
  revision : nat
}.

(** The performatives a frame can carry. *)
Inductive PerfName :=
| p_open | p_begin | p_attach | p_flow | p_transfer
| p_disposition | p_detach | p_end | p_close.

(** The fields of a performative the connection reads or writes:
    [remote_channel] is [None] for JavaScript's [null] and [undefined]. *)
Record Performative := {
  perf_name : PerfName;
  container_id : option string;
  remote_channel : option nat
}.

(** What [frames.read_frame] returns: the physical channel of the frame and
    its performative (and the payload of a transfer). *)
Record Frame := {
  channel : nat;
  performative : Performative;
  payload : option Buffer
}.

(** The exceptions of the model. [Error] is what the connection throws
    itself, [TypeError] and [RangeError] are thrown by the runtime. *)
Inductive JsError :=
| Error (msg : string)
| TypeError (msg : string)
| RangeError (msg : string).

(** The completion of a call into a collaborator that returns a value. *)
Inductive completion (A : Type) :=
| Normal (a : A)
| Abrupt (e : JsError).
Arguments Normal {A} a.
Arguments Abrupt {A} e.

(** ** The collaborators *)

(** [frames.js]: the codec. [write_amqp_frame] receives the buffer to fill
    and returns it with the number of bytes written. *)
Class Codec := {
  Described : Type;
  described : Performative -> Described;
  read_header : Buffer -> completion Header;
  read_frame : Buffer -> completion Frame;
  write_header : Buffer -> Header -> Buffer;
  write_amqp_frame : Buffer -> nat -> Described -> option Buffer -> Buffer * nat
}.

(** [endpoint.js]: the state tracker. The five calls that answer and may
    record something return the answer with the tracker after the call;
    the three others only observe. *)
Class StateTracker := {
  EndpointState : Type;
  new_EndpointState : EndpointState;
  st_open : EndpointState -> bool * EndpointState;
  st_close : EndpointState -> bool * EndpointState;
  st_remote_opened : EndpointState -> bool * EndpointState;
  st_remote_closed : EndpointState -> bool * EndpointState;
  st_need_open : EndpointState -> bool * EndpointState;
  st_need_close : EndpointState -> bool * EndpointState;
  st_is_open : EndpointState -> bool;
  st_is_closed : EndpointState -> bool;
  st_has_settled : EndpointState -> bool
}.

(** The methods of a session that the connection calls with a frame. *)
Inductive Delegated :=
| d_end | d_attach | d_detach | d_transfer | d_disposition | d_flow.

Inductive SessionMethod :=
| m_on_begin
| m_on (d : Delegated).

Definition delegated_name (d : Delegated) : string :=
  match d with
  | d_end => "end"
  | d_attach => "attach"
  | d_detach => "detach"
  | d_transfer => "transfer"
  | d_disposition => "disposition"
  | d_flow => "flow"
  end.

(** A session object, as far as the connection touches it: the channel it
    was constructed with, the [remote_channel] field of its [local.begin]
    and the rest of it, which only [session.js] knows. *)
Record Session (D : Type) := {
  ssn_channel : nat;
  ssn_begin_remote_channel : option nat;
  ssn_data : D
}.
Arguments ssn_channel {D} s.
Arguments ssn_begin_remote_channel {D} s.
Arguments ssn_data {D} s.

(** A frame a session hands to [_write_frame]. *)
Record OutFrame := {
  out_channel : nat;
  out_frame : Performative;
  out_payload : option Buffer
}.

(** [session.js]: a session handles a frame by updating itself, and its
    [_process] flushes the frames it has pending through the connection. *)
Class SessionLogic := {
  SessionData : Type;
  Session_data : nat -> SessionData;
  ssn_on : SessionMethod -> Session SessionData -> Frame -> Session SessionData;
  ssn_process : Session SessionData -> Session SessionData * list OutFrame
}.

(** ** What the connection does to the outside *)

(** The container a connection may be constructed with. Its id is taken to
    be a string, as are the id and the container id of the options. *)
Record Container := {
  container_ident : string
}.

(** The object [_context] builds: it refers to the connection (by its id)
    and to the container, when there is one. *)
Record Context := {
  ctx_connection : string;
  ctx_container : option Container
}.

(** The calls that leave the connection, in the order they are made. *)
Inductive Effect :=
| SocketWrite (b : Buffer)
| SocketEnd
| Emit (listener : nat) (name : string) (ctx : Context)
| ContainerDispatch (k : Container) (name : string) (ctx : Context)
| SessionCall (sid : nat) (m : SessionMethod) (f : Frame)
| SessionProcess (sid : nat).

(** The session whose [on_begin] received the latest begin frame of channel
    [ch] among the calls [es] (the latest call is the last of the list). *)
Fixpoint last_begin (ch : nat) (es : list Effect) : option nat :=
  match es with
  | [] => None
  | e :: es =>
      match last_begin ch es with
      | Some sid => Some sid
      | None =>
          match e with
          | SessionCall sid m_on_begin f =>
              if decide (channel f = ch) then Some sid else None
          | _ => None
          end
      end
  end.

(** The calls of a session's [on_begin]. *)
Definition is_begin_call (e : Effect) : bool :=
  match e with
  | SessionCall _ m_on_begin _ => true
  | _ => false
  end.

(** The calls on the socket. *)
Definition is_socket_effect (e : Effect) : bool :=
  match e with
  | SocketWrite _ | SocketEnd => true
  | _ => false
  end.

(** The argument [options] of the constructor, as far as it is read. *)
Record Options := {
  opt_id : option string;
  opt_container_id : option string
}.

(** ** The connection *)

Section Connection.
Context `{Codec} `{StateTracker} `{SessionLogic}.

(** The fields of a [Connection] object, followed by the part of the world
    the connection acts on: the session objects it created ([sessions], a
    store indexed by the order of creation; the two channel maps hold such
    indices, so that one session reached through both maps is one object),
    the number of [_process] passes handed to [process.nextTick] and not
    yet begun ([scheduled]), and the calls made to the socket, the
    listeners, the container and the sessions ([effects]).

    [socket], [pending], [previous_input] and [header_received] are [None]
    while the JavaScript field is [undefined] (or [null]): the constructor
    assigns none of them. *)
Record Connection := {
  options_id : string;
  options_container_id : option string;
  container : option Container;
  registered : bool;
  state : EndpointState;
  local_channel_map : gmap nat nat;
  remote_channel_map : gmap nat nat;
  local_open : Performative;
  local_close : Performative;
  remote_open : option Performative;
  remote_close : option Performative;
  socket : option nat;
  pending : option (list Buffer);
  previous_input : option Buffer;
  header_received : option Header;
  listeners : gmap string (list nat);
  sessions : list (Session SessionData);
  scheduled : nat;
  effects : list Effect
}.

(** Assignment to one field. *)
Definition set_registered (v : bool) (c : Connection) : Connection :=
  {| options_id := options_id c;
     options_container_id := options_container_id c;
     container := container c; registered := v; state := state c;
     local_channel_map := local_channel_map c;
     remote_channel_map := remote_channel_map c; local_open := local_open c;
     local_close := local_close c; remote_open := remote_open c;
     remote_close := remote_close c; socket := socket c;
     pending := pending c; previous_input := previous_input c;
     header_received := header_received c; listeners := listeners c;
     sessions := sessions c; scheduled := scheduled c;
     effects := effects c |}.

Definition set_state (v : EndpointState) (c : Connection) : Connection :=
  {| options_id := options_id c;
     options_container_id := options_container_id c;
     container := container c; registered := registered c; state := v;
     local_channel_map := local_channel_map c;
     remote_channel_map := remote_channel_map c; local_open := local_open c;
     local_close := local_close c; remote_open := remote_open c;
     remote_close := remote_close c; socket := socket c;
     pending := pending c; previous_input := previous_input c;
     header_received := header_received c; listeners := listeners c;
     sessions := sessions c; scheduled := scheduled c;
     effects := effects c |}.

Definition set_local_channel_map (v : gmap nat nat) (c : Connection) : Connection :=
  {| options_id := options_id c;
     options_container_id := options_container_id c;
     container := container c; registered := registered c; state := state c;
     local_channel_map := v; remote_channel_map := remote_channel_map c;
     local_open := local_open c; local_close := local_close c;
     remote_open := remote_open c; remote_close := remote_close c;
     socket := socket c; pending := pending c;
     previous_input := previous_input c;
     header_received := header_received c; listeners := listeners c;
     sessions := sessions c; scheduled := scheduled c;
     effects := effects c |}.

Definition set_remote_channel_map (v : gmap nat nat) (c : Connection) : Connection :=
  {| options_id := options_id c;
     options_container_id := options_container_id c;
     container := container c; registered := registered c; state := state c;
     local_channel_map := local_channel_map c; remote_channel_map := v;
     local_open := local_open c; local_close := local_close c;
     remote_open := remote_open c; remote_close := remote_close c;
     socket := socket c; pending := pending c;
     previous_input := previous_input c;
     header_received := header_received c; listeners := listeners c;
     sessions := sessions c; scheduled := scheduled c;
     effects := effects c |}.

Definition set_remote_open (v : option Performative) (c : Connection) : Connection :=
  {| options_id := options_id c;
     options_container_id := options_container_id c;
     container := container c; registered := registered c; state := state c;
     local_channel_map := local_channel_map c;
     remote_channel_map := remote_channel_map c; local_open := local_open c;
     local_close := local_close c; remote_open := v;
     remote_close := remote_close c; socket := socket c;
     pending := pending c; previous_input := previous_input c;
     header_received := header_received c; listeners := listeners c;
     sessions := sessions c; scheduled := scheduled c;
     effects := effects c |}.

Definition set_remote_close (v : option Performative) (c : Connection) : Connection :=
  {| options_id := options_id c;
     options_container_id := options_container_id c;
     container := container c; registered := registered c; state := state c;
     local_channel_map := local_channel_map c;
     remote_channel_map := remote_channel_map c; local_open := local_open c;
     local_close := local_close c; remote_open := remote_open c;
     remote_close := v; socket := socket c; pending := pending c;
     previous_input := previous_input c;
     header_received := header_received c; listeners := listeners c;
     sessions := sessions c; scheduled := scheduled c;
     effects := effects c |}.

Definition set_socket (v : option nat) (c : Connection) : Connection :=
  {| options_id := options_id c;
     options_container_id := options_container_id c;
     container := container c; registered := registered c; state := state c;
     local_channel_map := local_channel_map c;
     remote_channel_map := remote_channel_map c; local_open := local_open c;
     local_close := local_close c; remote_open := remote_open c;
     remote_close := remote_close c; socket := v; pending := pending c;
     previous_input := previous_input c;
     header_received := header_received c; listeners := listeners c;
     sessions := sessions c; scheduled := scheduled c;
     effects := effects c |}.

Definition set_pending (v : option (list Buffer)) (c : Connection) : Connection :=
  {| options_id := options_id c;
     options_container_id := options_container_id c;
     container := container c; registered := registered c; state := state c;
     local_channel_map := local_channel_map c;
     remote_channel_map := remote_channel_map c; local_open := local_open c;
     local_close := local_close c; remote_open := remote_open c;
     remote_close := remote_close c; socket := socket c; pending := v;
     previous_input := previous_input c;
     header_received := header_received c; listeners := listeners c;
     sessions := sessions c; scheduled := scheduled c;
     effects := effects c |}.

Definition set_previous_input (v : option Buffer) (c : Connection) : Connection :=
  {| options_id := options_id c;
     options_container_id := options_container_id c;
     container := container c; registered := registered c; state := state c;
     local_channel_map := local_channel_map c;
     remote_channel_map := remote_channel_map c; local_open := local_open c;
     local_close := local_close c; remote_open := remote_open c;
     remote_close := remote_close c; socket := socket c;
     pending := pending c; previous_input := v;
     header_received := header_received c; listeners := listeners c;
     sessions := sessions c; scheduled := scheduled c;
     effects := effects c |}.

Definition set_header_received (v : option Header) (c : Connection) : Connection :=
  {| options_id := options_id c;
     options_container_id := options_container_id c;
     container := container c; registered := registered c; state := state c;
     local_channel_map := local_channel_map c;
     remote_channel_map := remote_channel_map c; local_open := local_open c;
     local_close := local_close c; remote_open := remote_open c;
     remote_close := remote_close c; socket := socket c;
     pending := pending c; previous_input := previous_input c;
     header_received := v; listeners := listeners c; sessions := sessions c;
     scheduled := scheduled c; effects := effects c |}.

Definition set_listeners (v : gmap string (list nat)) (c : Connection) : Connection :=
  {| options_id := options_id c;
     options_container_id := options_container_id c;
     container := container c; registered := registered c; state := state c;
     local_channel_map := local_channel_map c;
     remote_channel_map := remote_channel_map c; local_open := local_open c;
     local_close := local_close c; remote_open := remote_open c;
     remote_close := remote_close c; socket := socket c;
     pending := pending c; previous_input := previous_input c;
     header_received := header_received c; listeners := v;
     sessions := sessions c; scheduled := scheduled c;
     effects := effects c |}.

Definition set_sessions (v : list (Session SessionData)) (c : Connection) : Connection :=
  {| options_id := options_id c;
     options_container_id := options_container_id c;
     container := container c; registered := registered c; state := state c;
     local_channel_map := local_channel_map c;
     remote_channel_map := remote_channel_map c; local_open := local_open c;
     local_close := local_close c; remote_open := remote_open c;
     remote_close := remote_close c; socket := socket c;
     pending := pending c; previous_input := previous_input c;
     header_received := header_received c; listeners := listeners c;
     sessions := v; scheduled := scheduled c; effects := effects c |}.

Definition set_scheduled (v : nat) (c : Connection) : Connection :=
  {| options_id := options_id c;
     options_container_id := options_container_id c;
     container := container c; registered := registered c; state := state c;
     local_channel_map := local_channel_map c;
     remote_channel_map := remote_channel_map c; local_open := local_open c;
     local_close := local_close c; remote_open := remote_open c;
     remote_close := remote_close c; socket := socket c;
     pending := pending c; previous_input := previous_input c;
     header_received := header_received c; listeners := listeners c;
     sessions := sessions c; scheduled := v; effects := effects c |}.

Definition set_effects (v : list Effect) (c : Connection) : Connection :=
  {| options_id := options_id c;
     options_container_id := options_container_id c;
     container := container c; registered := registered c; state := state c;
     local_channel_map := local_channel_map c;
     remote_channel_map := remote_channel_map c; local_open := local_open c;
     local_close := local_close c; remote_open := remote_open c;
     remote_close := remote_close c; socket := socket c;
     pending := pending c; previous_input := previous_input c;
     header_received := header_received c; listeners := listeners c;
     sessions := sessions c; scheduled := scheduled c; effects := v |}.

Definition add_effects (es : list Effect) (c : Connection) : Connection :=
  set_effects (effects c ++ es) c.

(** The outcome of a method: it returns, it throws (the connection is the
    one the exception leaves behind), or the model ran out of the steps it
    was given for a loop. *)
Inductive result (A : Type) :=
| Ok (a : A)
| Thrown (e : JsError) (c : Connection)
| OutOfFuel.
Arguments Ok {A} a.
Arguments Thrown {A} e c.
Arguments OutOfFuel {A}.

Definition bind {A B : Type} (r : result A) (k : A -> result B) : result B :=
  match r with
  | Ok a => k a
  | Thrown e c => Thrown e c
  | OutOfFuel => OutOfFuel
  end.

Notation "x <- r ;; k" := (bind r (fun x => k))
  (at level 100, r at next level, right associativity).

(** *** Construction *)

Definition truthy (s : option string) : bool :=
  match s with
  | Some s => negb (String.eqb s "")
  | None => false
  end.

Definition frames_open (cid : option string) : Performative :=
  {| perf_name := p_open; container_id := cid; remote_channel := None |}.

Definition frames_close : Performative :=
  {| perf_name := p_close; container_id := None; remote_channel := None |}.

(** [new Connection(options, container)]. [conn_counter] is the module's
    counter when the constructor runs and [uuid] what [util.generate_uuid]
    returns if it is called. *)
Definition new_Connection (options : option Options) (k : option Container)
    (conn_counter : nat) (uuid : string) : Connection :=
  let id := options ≫= opt_id in
  let id := if truthy id then default "" id
            else "connection-" +:+ pretty conn_counter in
  let cid := options ≫= opt_container_id in
  let cid := if negb (bool_decide (is_Some k)) && negb (truthy cid)
             then Some uuid else cid in
  {| options_id := id;
     options_container_id := cid;
     container := k;
     registered := false;
     state := new_EndpointState;
     local_channel_map := ∅;
     remote_channel_map := ∅;
     local_open :=
       frames_open (match k with
                    | Some k => Some (container_ident k)
                    | None => cid
                    end);
     local_close := frames_close;
     remote_open := None;
     remote_close := None;
     socket := None;
     pending := None;
     previous_input := None;
     header_received := None;
     listeners := ∅;
     sessions := [];
     scheduled := 0;
     effects := [] |}.

(** *** The dispatch bridge *)

(** [EventEmitter.prototype.listeners] and [on]. *)
Definition listeners_of (name : string) (c : Connection) : list nat :=
  default [] (listeners c !! name).

Definition on (name : string) (listener : nat) (c : Connection) : Connection :=
  set_listeners (<[name := listeners_of name c ++ [listener]]> (listeners c)) c.

Definition emit (name : string) (ctx : Context) (c : Connection) : Connection :=
  add_effects (map (fun l => Emit l name ctx) (listeners_of name c)) c.

Definition dispatch (name : string) (ctx : Context) (c : Connection)
    : Connection :=
  if negb (Nat.eqb (length (listeners_of name c)) 0) then emit name ctx c
  else match container c with
       | Some k => add_effects [ContainerDispatch k name ctx] c
       | None => c
       end.

Definition _context (ctx : option Context) (c : Connection) : Context :=
  let context := default {| ctx_connection := ""; ctx_container := None |} ctx in
  let context :=
    {| ctx_connection := options_id c;
       ctx_container := ctx_container context |} in
  match container c with
  | Some k =>
      {| ctx_connection := ctx_connection context; ctx_container := Some k |}
  | None => context
  end.

(** *** Output *)

(** [new Buffer(n)]. *)
Definition new_Buffer (n : nat) : Buffer := replicate n x00.

Definition socket_write (b : Buffer) (c : Connection) : Connection :=
  add_effects [SocketWrite b] c.

Definition socket_end (c : Connection) : Connection :=
  add_effects [SocketEnd] c.

(** The [for] loop of [output] over [this.pending]. *)
Fixpoint write_pending (q : list Buffer) (c : Connection) : Connection :=
  match q with
  | [] => c
  | b :: q => write_pending q (socket_write b c)
  end.

Definition is_open (c : Connection) : bool := st_is_open (state c).
Definition is_closed (c : Connection) : bool := st_is_closed (state c).

(** [output]. Reading [length] or [push] of a [pending] that is still
    [undefined] is a [TypeError]. *)
Definition output (buffer : Buffer) (c : Connection) : result Connection :=
  match socket c with
  | Some _ =>
      match pending c with
      | None => Thrown (TypeError "Cannot read property 'length' of undefined") c
      | Some q =>
          let c := write_pending q c in
          let c := set_pending (Some []) c in
          let c := socket_write buffer c in
          if is_closed c then Ok (socket_end c) else Ok c
      end
  | None =>
      match pending c with
      | None => Thrown (TypeError "Cannot read property 'push' of undefined") c
      | Some q => Ok (set_pending (Some (q ++ [buffer])) c)
      end
  end.

Definition _write_frame (ch : nat) (frame : Described)
    (payload : option Buffer) (c : Connection) : result Connection :=
  let buffer := new_Buffer 1024 in
  let '(buffer, len) := write_amqp_frame buffer ch frame payload in
  output (take len buffer) c.

Definition _write_open (c : Connection) : result Connection :=
  _write_frame 0 (described (local_open c)) None c.

Definition _write_close (c : Connection) : result Connection :=
  _write_frame 0 (described (local_close c)) None c.

(** *** The lifecycle driver *)

(** [_register]: [process.nextTick] adds one pass to the scheduled ones. *)
Definition _register (c : Connection) : Connection :=
  if negb (registered c) then
    let c := set_registered true c in
    set_scheduled (S (scheduled c)) c
  else c.

Definition open (c : Connection) : Connection :=
  let '(fresh, st) := st_open (state c) in
  let c := set_state st c in
  if fresh then _register c else c.

Definition close (c : Connection) : Connection :=
  let '(fresh, st) := st_close (state c) in
  let c := set_state st c in
  if fresh then _register c else c.

(** [init]: the socket is attached, [pending] starts with the protocol
    header and the connection is opened. ([connect] and [accept] both
    return [init] of a socket.) *)
Definition init (sock : nat) (c : Connection) : Connection :=
  let c := set_socket (Some sock) c in
  let c := set_pending (Some []) c in
  let buffer := new_Buffer 8 in
  let buffer :=
    write_header buffer
      {| protocol_id := 0; major := 1; minor := 0; revision := 0 |} in
  let c := set_pending (option_map (fun q => q ++ [buffer]) (pending c)) c in
  open c.

Definition accept (sock : nat) (c : Connection) : Connection := init sock c.

(** The keys a [for (k in map)] loop visits: the integer keys of an object
    come in ascending order. *)
Definition for_in_keys (m : gmap nat nat) : list nat :=
  merge_sort Nat.le (elements (dom m)).

Fixpoint write_frames (outs : list OutFrame) (c : Connection)
    : result Connection :=
  match outs with
  | [] => Ok c
  | o :: outs =>
      c <- _write_frame (out_channel o) (described (out_frame o))
             (out_payload o) c;;
      write_frames outs c
  end.

(** [this.local_channel_map[k]._process()]: the session updates itself and
    writes its pending frames through [_write_frame]. *)
Definition session_process (k : nat) (c : Connection) : result Connection :=
  match local_channel_map c !! k with
  | None => Ok c
  | Some sid =>
      match sessions c !! sid with
      | None => Ok c
      | Some s =>
          let '(s, outs) := ssn_process s in
          let c := set_sessions (<[sid := s]> (sessions c)) c in
          let c := add_effects [SessionProcess sid] c in
          write_frames outs c
      end
  end.

Fixpoint process_sessions (ks : list nat) (c : Connection)
    : result Connection :=
  match ks with
  | [] => Ok c
  | k :: ks => c <- session_process k c;; process_sessions ks c
  end.

(** The body of the [do ... while] loop of [_process]. *)
Definition process_once (c : Connection) : result Connection :=
  let '(need, st) := st_need_open (state c) in
  let c := set_state st c in
  c <- (if need then _write_open c else Ok c);;
  c <- process_sessions (for_in_keys (local_channel_map c)) c;;
  let '(need, st) := st_need_close (state c) in
  let c := set_state st c in
  if need then _write_close c else Ok c.

(** The loop itself: the body runs, then [has_settled] decides whether it
    runs again. [fuel] bounds the number of iterations. *)
Fixpoint process_loop (fuel : nat) (c : Connection) : result Connection :=
  match fuel with
  | 0 => OutOfFuel
  | S fuel =>
      c <- process_once c;;
      if negb (st_has_settled (state c)) then process_loop fuel c else Ok c
  end.

Definition _process (fuel : nat) (c : Connection) : result Connection :=
  let c := set_registered false c in
  process_loop fuel c.

(** The event loop runs the next pass that [process.nextTick] was given,
    if there is one. *)
Definition run_tick (fuel : nat) (c : Connection) : result Connection :=
  match scheduled c with
  | 0 => Ok c
  | S n => _process fuel (set_scheduled n c)
  end.

(** *** The channel multiplexer *)

(** [new Session(connection, i)]. *)
Definition new_Session (i : nat) : Session SessionData :=
  {| ssn_channel := i;
     ssn_begin_remote_channel := None;
     ssn_data := Session_data i |}.

(** [while (this.local_channel_map[i]) i++], at most [fuel] tests. *)
Fixpoint first_free (m : gmap nat nat) (fuel i : nat) : option nat :=
  match fuel with
  | 0 => None
  | S fuel =>
      match m !! i with
      | Some _ => first_free m fuel (S i)
      | None => Some i
      end
  end.

(** [create_session]: the new connection and the new session (its index in
    the store). A map of [n] keys needs at most [n + 1] tests. *)
Definition create_session (c : Connection) : option (Connection * nat) :=
  let m := local_channel_map c in
  match first_free m (S (size m)) 0 with
  | None => None
  | Some i =>
      let session := length (sessions c) in
      let c := set_sessions (sessions c ++ [new_Session i]) c in
      let c := set_local_channel_map (<[i := session]> m) c in
      Some (c, session)
  end.

Definition set_begin_remote_channel (ch : nat) (s : Session SessionData)
    : Session SessionData :=
  {| ssn_channel := ssn_channel s;
     ssn_begin_remote_channel := Some ch;
     ssn_data := ssn_data s |}.

(** [session.on_xxx(frame)] on the session object [sid]. *)
Definition session_call (sid : nat) (m : SessionMethod) (frame : Frame)
    (c : Connection) : Connection :=
  let c := add_effects [SessionCall sid m frame] c in
  set_sessions (alter (fun s => ssn_on m s frame) sid (sessions c)) c.

Definition on_begin (frame : Frame) (c : Connection) : result Connection :=
  r <- match remote_channel (performative frame) with
       | None =>
           match create_session c with
           | None => OutOfFuel
           | Some (c, session) =>
               Ok (set_sessions
                     (alter (set_begin_remote_channel (channel frame)) session
                        (sessions c)) c,
                   session)
           end
       | Some rc =>
           match local_channel_map c !! rc with
           | Some session => Ok (c, session)
           | None =>
               Thrown (Error ("Invalid value for remote channel " +:+ pretty rc)) c
           end
       end;;
  let '(c, session) := r in
  let c := session_call session m_on_begin frame c in
  Ok (set_remote_channel_map
        (<[channel frame := session]> (remote_channel_map c)) c).

(** The function [delegate_to_session(name)] installs as [on_<name>]. *)
Definition delegate_to_session (d : Delegated) (frame : Frame) (c : Connection)
    : result Connection :=
  match remote_channel_map c !! channel frame with
  | None =>
      Thrown (Error (delegated_name d +:+ " received on invalid channel "
                       +:+ pretty (channel frame))) c
  | Some session => Ok (session_call session (m_on d) frame c)
  end.

Definition on_open (frame : Frame) (c : Connection) : result Connection :=
  let '(valid, st) := st_remote_opened (state c) in
  let c := set_state st c in
  if valid then
    let c := set_remote_open (Some (performative frame)) c in
    let c := dispatch "connection_open" (_context None c) c in
    Ok (open c)
  else Thrown (Error "Open already received") c.

Definition on_close (frame : Frame) (c : Connection) : result Connection :=
  let '(valid, st) := st_remote_closed (state c) in
  let c := set_state st c in
  if valid then
    let c := set_remote_close (Some (performative frame)) c in
    let c := dispatch "connection_close" (_context None c) c in
    Ok (close c)
  else Thrown (Error "Close already received") c.

(** Modelled from the spec: [frame.performative.dispatch(connection, frame)]
    of [frames.js], which is not among the sources; a decoded frame goes to
    the handler of the connection named after its performative. *)
Definition performative_dispatch (frame : Frame) (c : Connection)
    : result Connection :=
  match perf_name (performative frame) with
  | p_open => on_open frame c
  | p_close => on_close frame c
  | p_begin => on_begin frame c
  | p_end => delegate_to_session d_end frame c
  | p_attach => delegate_to_session d_attach frame c
  | p_detach => delegate_to_session d_detach frame c
  | p_transfer => delegate_to_session d_transfer frame c
  | p_disposition => delegate_to_session d_disposition frame c
  | p_flow => delegate_to_session d_flow frame c
  end.

(** *** The frame reassembler *)

(** [buffer.readUInt32BE(offset)]: a [RangeError] unless four bytes are
    there. *)
Definition readUInt32BE (buffer : Buffer) (offset : nat) : option nat :=
  match drop offset buffer with
  | b0 :: b1 :: b2 :: b3 :: _ =>
      Some (N.to_nat (((Byte.to_N b0 * 256 + Byte.to_N b1) * 256
                        + Byte.to_N b2) * 256 + Byte.to_N b3))
  | _ => None
  end.

(** [buffer.slice(from, to)]. *)
Definition slice (from to : nat) (buffer : Buffer) : Buffer :=
  take (to - from) (drop from buffer).

(** The [while] loop of [input], at most [fuel] iterations. *)
Fixpoint input_frames (fuel : nat) (buffer : Buffer) (offset : nat)
    (c : Connection) : result Connection :=
  match fuel with
  | 0 => OutOfFuel
  | S fuel =>
      if Nat.ltb offset (length buffer) then
        match readUInt32BE buffer offset with
        | None => Thrown (RangeError "Trying to access beyond buffer length") c
        | Some frame_size =>
            if Nat.ltb (length buffer) (offset + frame_size) then
              Ok (set_previous_input (Some (drop offset buffer)) c)
            else
              match read_frame (slice offset (offset + frame_size) buffer) with
              | Abrupt e => Thrown e c
              | Normal frame =>
                  c <- performative_dispatch frame c;;
                  input_frames fuel buffer (offset + frame_size) c
              end
        end
      else Ok c
  end.

(** [input]. When [previous_input] holds a buffer, the arguments of
    [Buffer.concat] are evaluated: [this.previous] is a field nothing
    assigns, so [this.previous.size()] reads a property of [undefined],
    which is a [TypeError]; [previous_input] is not cleared by then. *)
Definition input (fuel : nat) (buff : Buffer) (c : Connection)
    : result Connection :=
  match previous_input c with
  | Some _ => Thrown (TypeError "Cannot read property 'size' of undefined") c
  | None =>
      let buffer := buff in
      match header_received c with
      | None =>
          if Nat.ltb (length buffer) 8 then
            Ok (set_previous_input (Some buffer) c)
          else
            match read_header buffer with
            | Abrupt e => Thrown e c
            | Normal h =>
                let c := set_header_received (Some h) c in
                input_frames fuel buffer 8 c
            end
      | Some _ => input_frames fuel buffer 0 c
      end
  end.

(** The chunks of a stream, handed to [input] one after the other. *)
Fixpoint input_all (fuel : nat) (chunks : list Buffer) (c : Connection)
    : result Connection :=
  match chunks with
  | [] => Ok c
  | b :: chunks => c <- input fuel b c;; input_all fuel chunks c
  end.

(** *** Histories *)

(** Modelled from the spec: the removal of the session of a local channel.
    Nothing in [connection.js] removes an entry of the local channel map;
    whoever does deletes the key. *)
Definition remove_session (k : nat) (c : Connection) : Connection :=
  set_local_channel_map (delete k (local_channel_map c)) c.

(** [n] calls of [create_session] in sequence. *)
Fixpoint create_sessions (n : nat) (c : Connection) : option Connection :=
  match n with
  | 0 => Some c
  | S n =>
      match create_session c with
      | Some (c, _) => create_sessions n c
      | None => None
      end
  end.

(** What can happen to a connection: the calls of the application and of
    the sessions, the events of the socket and the turn of the event loop
    that runs a scheduled pass. *)
Inductive Call :=
| call_on (name : string) (listener : nat)
| call_accept (sock : nat)
| call_open
| call_close
| call_register
| call_create_session
| call_output (buffer : Buffer)
| call_input (fuel : nat) (buff : Buffer)
| call_handle (frame : Frame)
| call_tick (fuel : nat).

Definition exec (call : Call) (c : Connection) : result Connection :=
  match call with
  | call_on name listener => Ok (on name listener c)
  | call_accept sock => Ok (accept sock c)
  | call_open => Ok (open c)
  | call_close => Ok (close c)
  | call_register => Ok (_register c)
  | call_create_session =>
      match create_session c with
      | Some (c, _) => Ok c
      | None => OutOfFuel
      end
  | call_output buffer => output buffer c
  | call_input fuel buff => input fuel buff c
  | call_handle frame => performative_dispatch frame c
  | call_tick fuel => run_tick fuel c
  end.

(** The connections a program can be in: a constructed one, and the one a
    call leaves, whether it returns or throws. *)
Inductive reachable : Connection -> Prop :=
| reachable_new options k n uuid :
    reachable (new_Connection options k n uuid)
| reachable_returns call c c' :
    reachable c -> exec call c = Ok c' -> reachable c'
| reachable_throws call e c c' :
    reachable c -> exec call c = Thrown e c' -> reachable c'.

(** A sequence of calls of [open] ([true]) and [close] ([false]). *)
Fixpoint open_close (calls : list bool) (c : Connection) : Connection :=
  match calls with
  | [] => c
  | call :: calls => open_close calls (if call then open c else close c)
  end.

(** The bytes [_write_frame] hands to [output]. *)
Definition frame_bytes (ch : nat) (frame : Described)
    (payload : option Buffer) : Buffer :=
  let '(buffer, len) := write_amqp_frame (new_Buffer 1024) ch frame payload in
  take len buffer.

(** The calls on the socket for one buffer, once the pending queue is
    empty: the write, and the end when the connection is closed. *)
Definition wrote (closed : bool) (b : Buffer) : list Effect :=
  SocketWrite b :: (if closed then [SocketEnd] else []).

(** [iterations n c c']: the body of the loop of [_process] runs [n] times
    from [c], the tracker reports the connection settled after the last
    time and not before, and [c'] is the connection then. *)
Inductive iterations : nat -> Connection -> Connection -> Prop :=
| iterations_last c c' :
    process_once c = Ok c' ->
    st_has_settled (state c') = true ->
    iterations 1 c c'
| iterations_more n c c1 c' :
    process_once c = Ok c1 ->
    st_has_settled (state c1) = false ->
    iterations n c1 c' ->
    iterations (S n) c c'.

(** A begin frame on channel [ch] has reached the [on_begin] of a
    session. *)
Definition begun (ch : nat) (c : Connection) : Prop :=
  exists sid f, SessionCall sid m_on_begin f ∈ effects c /\ channel f = ch.

(** *** What a pass hands over *)

(** The buffers written on the socket so far, in order. *)
Definition written (c : Connection) : list Buffer :=
  omap (fun e => match e with SocketWrite b => Some b | _ => None end)
    (effects c).

(** The buffers handed to [output] so far, in order: the written ones and
    then the pending ones. *)
Definition outbound (c : Connection) : list Buffer :=
  written c ++ default [] (pending c).

(** The sessions whose [_process] was called so far, in order. *)
Definition processed (c : Connection) : list nat :=
  omap (fun e => match e with SessionProcess sid => Some sid | _ => None end)
    (effects c).

(** A connection without what [output] changes: the pending queue and the
    calls made. Two connections with the same rest differ in those only. *)
Definition rest (c : Connection) : Connection :=
  set_effects [] (set_pending None c).

(** The bytes of a frame that a session hands over. *)
Definition out_bytes (o : OutFrame) : Buffer :=
  frame_bytes (out_channel o) (described (out_frame o)) (out_payload o).

(** What the sessions under the keys [ks] do when each is asked to process,
    in the order of the keys: the session store afterwards, the sessions
    asked and the frames they hand over. *)
Fixpoint sessions_flush (ks : list nat) (m : gmap nat nat)
    (ss : list (Session SessionData))
    : list (Session SessionData) * (list nat * list OutFrame) :=
  match ks with
  | [] => (ss, ([], []))
  | k :: ks =>
      match m !! k with
      | None => sessions_flush ks m ss
      | Some sid =>
          match ss !! sid with
          | None => sessions_flush ks m ss
          | Some s =>
              let '(s, outs) := ssn_process s in
              let '(ss, (sids, outs')) :=
                sessions_flush ks m (<[sid := s]> ss) in
              (ss, (sid :: sids, outs ++ outs'))
          end
      end
  end.

(** The calls that [dispatch] makes for an event: the listeners of the name
    if there are any, the container otherwise, if there is one. *)
Definition dispatched (name : string) (ctx : Context) (c : Connection)
    : list Effect :=
  match listeners_of name c with
  | [] =>
      match container c with
      | Some k => [ContainerDispatch k name ctx]
      | None => []
      end
  | l :: ls => map (fun l => Emit l name ctx) (l :: ls)
  end.

(** *** Streams of frames *)

(** The frames of a list, handed to their handlers in order; the first
    handler that throws ends it. *)
Fixpoint dispatch_all (frames : list Frame) (c : Connection)
    : result Connection :=
  match frames with
  | [] => Ok c
  | frame :: frames =>
      c <- performative_dispatch frame c;; dispatch_all frames c
  end.

(** The bytes of one frame: they start with their own number, on four
    bytes. *)
Definition sized (f : Buffer) : Prop :=
  readUInt32BE f 0 = Some (length f).

(** Bytes that do not hold a whole frame: if four of them are there, they
    announce more bytes than there are. *)
Definition unfinished (tail : Buffer) : Prop :=
  forall n, readUInt32BE tail 0 = Some n -> length tail < n.

(** What the loop of [input] does with such bytes at the end of a buffer:
    nothing if there are none, a [RangeError] if the length cannot be read,
    and the bytes are left over otherwise. *)
Definition tail_outcome (tail : Buffer) (c : Connection) : result Connection :=
  match tail with
  | [] => Ok c
  | _ :: _ =>
      match readUInt32BE tail 0 with
      | None => Thrown (RangeError "Trying to access beyond buffer length") c
      | Some _ => Ok (set_previous_input (Some tail) c)
      end
  end.

(** The calls made on the socket so far. *)
Definition socket_effects (c : Connection) : list Effect :=
  List.filter is_socket_effect (effects c).

(** A codec that writes a frame into the buffer it is given: the buffer
    keeps its length. *)
Definition writes_in_place : Prop :=
  forall buffer ch frame payload,
    length (write_amqp_frame buffer ch frame payload).1 = length buffer.

(** *** The session policy *)

(** The rest of [session.js] that the connection calls on behalf of the
    application: [begin], and the two ways to attach a link. *)
Class SessionLinks := {
  Link : Type;
  LinkOptions : Type;
  ssn_begin : Session SessionData -> Session SessionData;
  ssn_attach_sender :
    LinkOptions -> Session SessionData -> Session SessionData * Link;
  ssn_attach_receiver :
    LinkOptions -> Session SessionData -> Session SessionData * Link
}.
Context `{SessionLinks}.

(** A connection with the variable [ssn] of the closure that
    [session_per_connection] returns ([this.session_policy]). *)
Record Policy := {
  policy_conn : Connection;
  policy_ssn : option nat
}.

Definition session_per_connection (conn : Connection) : Policy :=
  {| policy_conn := conn; policy_ssn := None |}.

(** [get_session]: the session of the policy, created and begun the first
    time. ([begin] and the attach methods act on the session object; they
    are not among the calls that [effects] records.) *)
Definition get_session (p : Policy) : option (Policy * nat) :=
  match policy_ssn p with
  | Some ssn => Some (p, ssn)
  | None =>
      match create_session (policy_conn p) with
      | None => None
      | Some (conn, ssn) =>
          let conn := set_sessions (alter ssn_begin ssn (sessions conn)) conn in
          Some ({| policy_conn := conn; policy_ssn := Some ssn |}, ssn)
      end
  end.

(** [session.attach_xxx(options)] on the session object [ssn]. *)
Definition session_attach
    (attach : Session SessionData -> Session SessionData * Link)
    (ssn : nat) (c : Connection) : option (Connection * Link) :=
  match sessions c !! ssn with
  | None => None
  | Some s =>
      let '(s, link) := attach s in
      Some (set_sessions (<[ssn := s]> (sessions c)) c, link)
  end.

Definition attach_sender (options : LinkOptions) (p : Policy)
    : option (Policy * Link) :=
  match get_session p with
  | None => None
  | Some (p, ssn) =>
      match session_attach (ssn_attach_sender options) ssn (policy_conn p) with
      | None => None
      | Some (conn, link) =>
          Some ({| policy_conn := conn; policy_ssn := policy_ssn p |}, link)
      end
  end.

Definition attach_receiver (options : LinkOptions) (p : Policy)
    : option (Policy * Link) :=
  match get_session p with
  | None => None
  | Some (p, ssn) =>
      match session_attach (ssn_attach_receiver options) ssn (policy_conn p) with
      | None => None
      | Some (conn, link) =>
          Some ({| policy_conn := conn; policy_ssn := policy_ssn p |}, link)
      end
  end.

(** *** Predicates on connections and on outcomes *)

(** What holds of the connection a method leaves, returning or throwing. *)
Definition leaves {A : Type} (P : A -> Prop) (Q : Connection -> Prop)
    (r : result A) : Prop :=
  match r with
  | Ok a => P a
  | Thrown _ c => Q c
  | OutOfFuel => True
  end.

(** A method keeps [P] when the connection it leaves satisfies [P]
    whenever the one it was called on did. *)
Definition keeps (P : Connection -> Prop)
    (f : Connection -> result Connection) : Prop :=
  forall c, P c -> leaves P P (f c).

(** [i] is the smallest number that is not a key of [m]. *)
Definition lowest_free (i : nat) (m : gmap nat nat) : Prop :=
  m !! i = None /\ forall j, j < i -> is_Some (m !! j).

(** The scheduled passes and the [registered] flag agree. *)
Definition one_pass (c : Connection) : Prop :=
  scheduled c = if registered c then 1 else 0.


(** The remote channel map holds, for every channel, the session that
    received the latest begin frame of the channel. *)
Definition follows_begin (c : Connection) : Prop :=
  forall ch, remote_channel_map c !! ch = last_begin ch (effects c).


(** A socket and a pending queue come together: [init] assigns both and
    nothing else assigns the socket. *)
Definition attached (c : Connection) : Prop :=
  (socket c = None /\ pending c = None) \/
  (is_Some (socket c) /\ is_Some (pending c)).

End Connection.

Arguments Ok {_ _ A} a.
Arguments Thrown {_ _ A} e c.
Arguments OutOfFuel {_ _ A}.

(** ** Collaborators to run the model with *)

(** Modelled from the spec: the state tracker of [endpoint.js], which is
    not among the sources. It keeps whether each side is open and whether
    an open or a close was requested and not yet sent; [need_open] and
    [need_close] answer once per request. *)
Record Endpoint := {
  ep_local_open : bool;
  ep_remote_open : bool;
  ep_open_requested : bool;
  ep_close_requested : bool;
  ep_initialised : bool
}.

Definition endpoint_new : Endpoint :=
  {| ep_local_open := false; ep_remote_open := false;
     ep_open_requested := false; ep_close_requested := false;
     ep_initialised := false |}.

Definition endpoint_open (e : Endpoint) : bool * Endpoint :=
  if ep_local_open e then (false, e)
  else (true, {| ep_local_open := true; ep_remote_open := ep_remote_open e;
                 ep_open_requested := true;
                 ep_close_requested := ep_close_requested e;
                 ep_initialised := true |}).

Definition endpoint_close (e : Endpoint) : bool * Endpoint :=
  if ep_local_open e
  then (true, {| ep_local_open := false; ep_remote_open := ep_remote_open e;
                 ep_open_requested := ep_open_requested e;
                 ep_close_requested := true;
                 ep_initialised := ep_initialised e |})
  else (false, e).

Definition endpoint_remote_opened (e : Endpoint) : bool * Endpoint :=
  if ep_remote_open e then (false, e)
  else (true, {| ep_local_open := ep_local_open e; ep_remote_open := true;
                 ep_open_requested := ep_open_requested e;
                 ep_close_requested := ep_close_requested e;
                 ep_initialised := ep_initialised e |}).

Definition endpoint_remote_closed (e : Endpoint) : bool * Endpoint :=
  if ep_remote_open e
  then (true, {| ep_local_open := ep_local_open e; ep_remote_open := false;
                 ep_open_requested := ep_open_requested e;
                 ep_close_requested := ep_close_requested e;
                 ep_initialised := ep_initialised e |})
  else (false, e).

Definition endpoint_need_open (e : Endpoint) : bool * Endpoint :=
  (ep_open_requested e,
   {| ep_local_open := ep_local_open e; ep_remote_open := ep_remote_open e;
      ep_open_requested := false;
      ep_close_requested := ep_close_requested e;
      ep_initialised := ep_initialised e |}).

Definition endpoint_need_close (e : Endpoint) : bool * Endpoint :=
  (ep_close_requested e,
   {| ep_local_open := ep_local_open e; ep_remote_open := ep_remote_open e;
      ep_open_requested := ep_open_requested e;
      ep_close_requested := false;
      ep_initialised := ep_initialised e |}).

#[local] Instance endpoint_tracker : StateTracker := {|
  EndpointState := Endpoint;
  new_EndpointState := endpoint_new;
  st_open := endpoint_open;
  st_close := endpoint_close;
  st_remote_opened := endpoint_remote_opened;
  st_remote_closed := endpoint_remote_closed;
  st_need_open := endpoint_need_open;
  st_need_close := endpoint_need_close;
  st_is_open := fun e => ep_local_open e && ep_remote_open e;
  st_is_closed := fun e =>
    ep_initialised e && negb (ep_local_open e) && negb (ep_remote_open e);
  st_has_settled := fun e =>
    negb (ep_open_requested e) && negb (ep_close_requested e)
|}.

(** Modelled from the spec: a codec in place of [frames.js], which is not
    among the sources. It has the wire layout of the protocol and a body of
    two bytes: the header is the protocol identifier and three version
    numbers after the letters AMQP; a frame is its total length on four
    bytes, the data offset, the type, the channel on two bytes, the code of
    the performative and its remote channel (255 for none). *)
Definition byte_of_nat (n : nat) : byte :=
  default x00 (Byte.of_N (N.of_nat n mod 256)).

Definition nat_of_byte (b : byte) : nat := N.to_nat (Byte.to_N b).

Definition perf_code (p : PerfName) : nat :=
  match p with
  | p_open => 16 | p_begin => 17 | p_attach => 18 | p_flow => 19
  | p_transfer => 20 | p_disposition => 21 | p_detach => 22
  | p_end => 23 | p_close => 24
  end.

Definition perf_of_code (n : nat) : option PerfName :=
  match n with
  | 16 => Some p_open | 17 => Some p_begin | 18 => Some p_attach
  | 19 => Some p_flow | 20 => Some p_transfer | 21 => Some p_disposition
  | 22 => Some p_detach | 23 => Some p_end | 24 => Some p_close
  | _ => None
  end.

Definition wire_read_header (b : Buffer) : completion Header :=
  match b with
  | x41 :: x4d :: x51 :: x50 :: i :: ma :: mi :: r :: _ =>
      Normal {| protocol_id := nat_of_byte i; major := nat_of_byte ma;
                minor := nat_of_byte mi; revision := nat_of_byte r |}
  | _ => Abrupt (Error "Invalid protocol header")
  end.

Definition wire_read_frame (b : Buffer) : completion Frame :=
  match b with
  | _ :: _ :: _ :: _ :: _ :: _ :: c1 :: c0 :: code :: rc :: _ =>
      match perf_of_code (nat_of_byte code) with
      | Some p =>
          Normal {| channel := nat_of_byte c1 * 256 + nat_of_byte c0;
                    performative :=
                      {| perf_name := p; container_id := None;
                         remote_channel :=
                           if Nat.eqb (nat_of_byte rc) 255 then None
                           else Some (nat_of_byte rc) |};
                    payload := None |}
      | None => Abrupt (Error "Unknown performative")
      end
  | _ => Abrupt (Error "Frame too short")
  end.

Definition wire_frame (ch : nat) (p : Performative) : Buffer :=
  [x00; x00; x00; x0a; x02; x00;
   byte_of_nat (ch / 256); byte_of_nat ch;
   byte_of_nat (perf_code (perf_name p));
   byte_of_nat (default 255 (remote_channel p))].

Definition wire_header (h : Header) : Buffer :=
  [x41; x4d; x51; x50; byte_of_nat (protocol_id h); byte_of_nat (major h);
   byte_of_nat (minor h); byte_of_nat (revision h)].

#[local] Instance wire_codec : Codec := {|
  Described := Performative;
  described := fun p => p;
  read_header := wire_read_header;
  read_frame := wire_read_frame;
  write_header := fun buffer h => wire_header h ++ drop 8 buffer;
  write_amqp_frame := fun buffer ch p _ =>
    (wire_frame ch p ++ drop 10 buffer, 10)
|}.

(** Modelled from the spec: a session in place of [session.js], which is
    not among the sources. It remembers what it was asked to handle, answers
    a begin with a begin of its own and flushes that on [_process]. *)
Record Recorded := {
  rec_handled : list SessionMethod;
  rec_outgoing : list OutFrame
}.

Definition recording_on (m : SessionMethod) (s : Session Recorded)
    (f : Frame) : Session Recorded :=
  {| ssn_channel := ssn_channel s;
     ssn_begin_remote_channel := ssn_begin_remote_channel s;
     ssn_data :=
       {| rec_handled := rec_handled (ssn_data s) ++ [m];
          rec_outgoing :=
            match m with
            | m_on_begin =>
                rec_outgoing (ssn_data s) ++
                [{| out_channel := ssn_channel s;
                    out_frame :=
                      {| perf_name := p_begin; container_id := None;
                         remote_channel := ssn_begin_remote_channel s |};
                    out_payload := None |}]
            | m_on _ => rec_outgoing (ssn_data s)
            end |} |}.

Definition recording_process (s : Session Recorded)
    : Session Recorded * list OutFrame :=
  ({| ssn_channel := ssn_channel s;
      ssn_begin_remote_channel := ssn_begin_remote_channel s;
      ssn_data := {| rec_handled := rec_handled (ssn_data s);
                     rec_outgoing := [] |} |},
   rec_outgoing (ssn_data s)).

#[local] Instance recording_sessions : SessionLogic := {|
  SessionData := Recorded;
  Session_data := fun _ => {| rec_handled := []; rec_outgoing := [] |};
  ssn_on := recording_on;
  ssn_process := recording_process
|}.

(** A connection constructed without options and without a container. *)
Definition fresh : Connection := new_Connection None None 1 "uuid".

(** The connection a call returned ([c] if it did not return). *)
Definition returned (r : result Connection) (c : Connection) : Connection :=
  match r with
  | Ok c' => c'
  | _ => c
  end.

(** The begin frame of a peer on channel [ch], with no remote channel. *)
Definition begin_frame (ch : nat) : Frame :=
  {| channel := ch;
     performative := {| perf_name := p_begin; container_id := None;
                        remote_channel := None |};
     payload := None |}.

(** [fresh] after the begin frame of a peer on channel 0. *)
Definition after_begin : Connection :=
  returned (on_begin (begin_frame 0) fresh) fresh.

(** [fresh] as [init] has it when it calls [open]: with socket 7 and the
    protocol header pending. *)
Definition attached_fresh : Connection :=
  set_pending
    (Some [write_header (new_Buffer 8)
             {| protocol_id := 0; major := 1; minor := 0; revision := 0 |}])
    (set_socket (Some 7) fresh).

(** The open frame of a peer. *)
Definition open_frame : Frame :=
  {| channel := 0;
     performative := {| perf_name := p_open; container_id := Some "peer";
                        remote_channel := None |};
     payload := None |}.

(** [fresh] with the listeners 5 and 6 for [connection_open]. *)
Definition listening : Connection :=
  on "connection_open" 6 (on "connection_open" 5 fresh).

(** The end frame of a peer on channel [ch]. *)
Definition end_frame (ch : nat) : Frame :=
  {| channel := ch;
     performative := {| perf_name := p_end; container_id := None;
                        remote_channel := None |};
     payload := None |}.

(** The version header of the protocol. *)
Definition amqp_1_0 : Header :=
  {| protocol_id := 0; major := 1; minor := 0; revision := 0 |}.

(** [fresh] after the protocol header has arrived. *)
Definition greeted : Connection :=
  returned (input 1 (wire_header amqp_1_0) fresh) fresh.

(** A connection constructed with a container. *)
Definition contained : Connection :=
  new_Connection None (Some {| container_ident := "box" |}) 2 "uuid".

(** Modelled from the spec: [begin] and the attach methods of [session.js],
    which is not among the sources. The session queues a begin or an attach
    frame, and a link is the number of frames queued before it. *)
Definition recording_queue (p : PerfName) (s : Session Recorded)
    : Session Recorded :=
  {| ssn_channel := ssn_channel s;
     ssn_begin_remote_channel := ssn_begin_remote_channel s;
     ssn_data :=
       {| rec_handled := rec_handled (ssn_data s);
          rec_outgoing :=
            rec_outgoing (ssn_data s) ++
            [{| out_channel := ssn_channel s;
                out_frame :=
                  {| perf_name := p; container_id := None;
                     remote_channel := ssn_begin_remote_channel s |};
                out_payload := None |}] |} |}.

#[local] Instance recording_links : SessionLinks := {|
  Link := nat;
  LinkOptions := string;
  ssn_begin := recording_queue p_begin;
  ssn_attach_sender := fun _ s =>
    (recording_queue p_attach s, length (rec_outgoing (ssn_data s)));
  ssn_attach_receiver := fun _ s =>
    (recording_queue p_attach s, length (rec_outgoing (ssn_data s)))
|}.

(** The policy of [fresh] once its session was asked for. *)
Definition policy_begun : Policy :=
  match get_session (session_per_connection fresh) with
  | Some (p, _) => p
  | None => session_per_connection fresh
  end.

(** Modelled from the spec: a codec like [wire_codec] that writes a frame
    into the buffer it is given and stops at the end of that buffer. *)
Definition clipping_codec : Codec := {|
  Described := Performative;
  described := fun p => p;
  read_header := wire_read_header;
  read_frame := wire_read_frame;
  write_header := fun buffer h =>
    take (length buffer) (wire_header h ++ drop 8 buffer);
  write_amqp_frame := fun buffer ch p _ =>
    (take (length buffer) (wire_frame ch p ++ drop 10 buffer), 10)
|}.

(** * Properties *)

Section Properties.
Context `{Codec} `{StateTracker} `{SessionLogic}.

Lemma leaves_bind {A B : Type} (P : A -> Prop) (P' : B -> Prop)
    (Q : Connection -> Prop) (r : result A) (k : A -> result B) :
  leaves P Q r -> (forall a, P a -> leaves P' Q (k a)) ->
  leaves P' Q (bind r k).
Proof. destruct r; simpl; auto. Qed.

Lemma keeps_bind (P : Connection -> Prop) f g :
  keeps P f -> keeps P g -> keeps P (fun c => bind (f c) g).
Proof. intros Hf Hg c Hc. eapply leaves_bind; [apply Hf, Hc | apply Hg]. Qed.

(** ** The dispatch bridge *)

Lemma dispatch_effects name ctx c :
  exists es, dispatch name ctx c = add_effects es c /\
    forall e, e ∈ es ->
      (exists l, e = Emit l name ctx) \/ (exists k, e = ContainerDispatch k name ctx).
Proof.
  unfold dispatch, emit.
  destruct (negb _).
  - eexists; split; [reflexivity |].
    intros e [l [-> _]]%list_elem_of_fmap. left; eauto.
  - destruct (container c) as [k |].
    + eexists; split; [reflexivity |].
      intros e ->%list_elem_of_singleton. right; eauto.
    + exists []. split; [| intros e He; inversion He].
      unfold add_effects. rewrite app_nil_r. by destruct c.
Qed.

(** C10. With no listener registered for the name and no container, [dispatch]
    returns the connection it was given: no listener and no container is
    called (the effects are the same), nothing is thrown (it is a total
    function) and no field changes. *)
Theorem dispatch_silent_drop (name : string) (ctx : Context) (c : Connection) :
  listeners_of name c = [] ->
  container c = None ->
  dispatch name ctx c = c.
Proof.
  intros Hl Hk. unfold dispatch. by rewrite Hl, Hk.
Qed.

Lemma context_of_connection c :
  _context None c =
    {| ctx_connection := options_id c; ctx_container := container c |}.
Proof. unfold _context. by destruct (container c). Qed.

Lemma open_remote c :
  remote_open (open c) = remote_open c /\
  remote_close (open c) = remote_close c.
Proof.
  unfold open, _register.
  destruct (st_open (state c)) as [[] st]; simpl; [| done].
  by destruct (registered c).
Qed.

Lemma close_remote c :
  remote_open (close c) = remote_open c /\
  remote_close (close c) = remote_close c.
Proof.
  unfold close, _register.
  destruct (st_close (state c)) as [[] st]; simpl; [| done].
  by destruct (registered c).
Qed.

Lemma dispatch_remote name ctx c :
  remote_open (dispatch name ctx c) = remote_open c /\
  remote_close (dispatch name ctx c) = remote_close c.
Proof. by destruct (dispatch_effects name ctx c) as (es & -> & _). Qed.

(** ** The lifecycle driver *)

Lemma dispatch_calls name ctx c :
  effects (dispatch name ctx c) = effects c ++ dispatched name ctx c /\
  state (dispatch name ctx c) = state c /\
  registered (dispatch name ctx c) = registered c /\
  scheduled (dispatch name ctx c) = scheduled c.
Proof.
  unfold dispatch, dispatched, emit.
  destruct (listeners_of name c) as [| l ls]; simpl; [| done].
  destruct (container c); simpl; [done |]. by rewrite app_nil_r.
Qed.

Lemma open_fields c :
  state (open c) = (st_open (state c)).2 /\
  registered (open c) = registered c || (st_open (state c)).1 /\
  scheduled (open c) =
    (if (st_open (state c)).1 && negb (registered c)
     then S (scheduled c) else scheduled c) /\
  effects (open c) = effects c.
Proof.
  unfold open, _register. destruct (st_open (state c)) as [[] st];
    destruct (registered c) eqn:Hr; simpl; by rewrite ?Hr.
Qed.

Lemma close_fields c :
  state (close c) = (st_close (state c)).2 /\
  registered (close c) = registered c || (st_close (state c)).1 /\
  scheduled (close c) =
    (if (st_close (state c)).1 && negb (registered c)
     then S (scheduled c) else scheduled c) /\
  effects (close c) = effects c.
Proof.
  unfold close, _register. destruct (st_close (state c)) as [[] st];
    destruct (registered c) eqn:Hr; simpl; by rewrite ?Hr.
Qed.

(** C5. [on_open] throws exactly when the tracker answers [remote_opened]
    with false (the remote side was already marked open), and [on_close]
    exactly when it answers [remote_closed] with false; the connection is
    then as before but for the tracker. When the answer is true, the handler
    returns: the performative of the frame is in [remote.open] (in
    [remote.close]); the event [connection_open] ([connection_close]) was
    dispatched with a context that refers to the connection and to its
    container, that is, every listener of that name was called in order, or
    else the container if there is one, and nothing else was called; then the
    tracker was asked to [open] ([close]), and when it answered that this
    is a fresh transition a pass is scheduled unless one was already. *)
Theorem remote_open_close_once (frame : Frame) (c : Connection) :
  let ctx :=
    {| ctx_connection := options_id c; ctx_container := container c |} in
  (((exists e c', on_open frame c = Thrown e c') <->
      (st_remote_opened (state c)).1 = false) /\
   let c1 := set_state (st_remote_opened (state c)).2 c in
   if (st_remote_opened (state c)).1 then
     exists c',
       on_open frame c = Ok c' /\
       remote_open c' = Some (performative frame) /\
       c' = open (dispatch "connection_open" ctx
                    (set_remote_open (Some (performative frame)) c1)) /\
       effects c' = effects c ++ dispatched "connection_open" ctx c /\
       state c' = (st_open (state c1)).2 /\
       registered c' = registered c || (st_open (state c1)).1 /\
       scheduled c' =
         (if (st_open (state c1)).1 && negb (registered c)
          then S (scheduled c) else scheduled c)
   else on_open frame c = Thrown (Error "Open already received") c1) /\
  (((exists e c', on_close frame c = Thrown e c') <->
      (st_remote_closed (state c)).1 = false) /\
   let c1 := set_state (st_remote_closed (state c)).2 c in
   if (st_remote_closed (state c)).1 then
     exists c',
       on_close frame c = Ok c' /\
       remote_close c' = Some (performative frame) /\
       c' = close (dispatch "connection_close" ctx
                     (set_remote_close (Some (performative frame)) c1)) /\
       effects c' = effects c ++ dispatched "connection_close" ctx c /\
       state c' = (st_close (state c1)).2 /\
       registered c' = registered c || (st_close (state c1)).1 /\
       scheduled c' =
         (if (st_close (state c1)).1 && negb (registered c)
          then S (scheduled c) else scheduled c)
   else on_close frame c = Thrown (Error "Close already received") c1).
Proof.
  split.
  - unfold on_open. destruct (st_remote_opened (state c)) as [[] st]; simpl.
    + split; [split; [by intros (e & c' & [=]) | done] |].
      eexists. split; [reflexivity |]. rewrite context_of_connection.
      split.
      { by rewrite (proj1 (open_remote _)), (proj1 (dispatch_remote _ _ _)). }
      split; [done |].
      match goal with
      | |- context [open ?x] => destruct (open_fields x) as (-> & -> & -> & ->)
      end.
      match goal with
      | |- context [dispatch ?n ?k ?x] =>
          destruct (dispatch_calls n k x) as (-> & -> & -> & ->)
      end.
      done.
    + split; [| done]. split; [done | eauto].
  - unfold on_close. destruct (st_remote_closed (state c)) as [[] st]; simpl.
    + split; [split; [by intros (e & c' & [=]) | done] |].
      eexists. split; [reflexivity |]. rewrite context_of_connection.
      split.
      { by rewrite (proj2 (close_remote _)), (proj2 (dispatch_remote _ _ _)). }
      split; [done |].
      match goal with
      | |- context [close ?x] => destruct (close_fields x) as (-> & -> & -> & ->)
      end.
      match goal with
      | |- context [dispatch ?n ?k ?x] =>
          destruct (dispatch_calls n k x) as (-> & -> & -> & ->)
      end.
      done.
    + split; [| done]. split; [done | eauto].
Qed.

(** *** Output *)

Lemma write_pending_effects q c :
  write_pending q c = add_effects (map SocketWrite q) c.
Proof.
  revert c. induction q as [| b q IH]; intros c; simpl.
  - unfold add_effects, set_effects. rewrite app_nil_r. by destruct c.
  - rewrite IH. unfold socket_write, add_effects. simpl.
    by rewrite <- app_assoc.
Qed.

(** [output] with a socket attached and a pending queue: the queue is
    written in the order it was filled, then the buffer; the queue is empty
    afterwards and the socket is ended exactly when the connection is
    closed. *)
Lemma output_attached buffer sock q c :
  socket c = Some sock ->
  pending c = Some q ->
  exists c',
    output buffer c = Ok c' /\
    pending c' = Some [] /\
    effects c' =
      effects c ++ map SocketWrite q ++ [SocketWrite buffer] ++
      (if is_closed c then [SocketEnd] else []).
Proof.
  intros Hs Hq. unfold output. rewrite Hs, Hq, write_pending_effects.
  unfold is_closed. simpl.
  destruct (st_is_closed (state c)); eexists; (split; [reflexivity |]); simpl.
  - split; [done |]. by rewrite <- !app_assoc.
  - split; [done |]. by rewrite <- !app_assoc.
Qed.

(** [output] with no socket but a pending queue: the buffer is appended to
    the queue and nothing is written. *)
Lemma output_queued buffer q c :
  socket c = None ->
  pending c = Some q ->
  output buffer c = Ok (set_pending (Some (q ++ [buffer])) c).
Proof. intros Hs Hq. unfold output. by rewrite Hs, Hq. Qed.

(** [output] on a constructed connection before [init]: there is no
    pending queue to push to. *)
Lemma output_before_init buffer options k n uuid :
  let c := new_Connection options k n uuid in
  socket c = None /\
  output buffer c =
    Thrown (TypeError "Cannot read property 'push' of undefined") c.
Proof. done. Qed.

(** ** The channel multiplexer *)

Lemma first_free_found (m : gmap nat nat) fuel i j :
  first_free m fuel i = Some j ->
  i <= j /\ m !! j = None /\ forall k, i <= k < j -> is_Some (m !! k).
Proof.
  revert i. induction fuel as [| fuel IH]; intros i; simpl; [done |].
  destruct (m !! i) as [v |] eqn:Hi.
  - intros (Hle & Hj & Hk)%IH. split_and!; [lia | done |].
    intros k Hk'. destruct (decide (k = i)) as [-> |]; [eauto |].
    apply Hk. lia.
  - intros [= <-]. split_and!; [lia | done | intros; lia].
Qed.

Lemma first_free_exhausted (m : gmap nat nat) fuel i :
  first_free m fuel i = None ->
  forall k, i <= k < i + fuel -> is_Some (m !! k).
Proof.
  revert i. induction fuel as [| fuel IH]; intros i; simpl; [intros; lia |].
  destruct (m !! i) as [v |] eqn:Hi; [| done].
  intros Hnone k Hk. destruct (decide (k = i)) as [-> |]; [eauto |].
  apply (IH _ Hnone). lia.
Qed.

Lemma first_free_total (m : gmap nat nat) :
  exists i, first_free m (S (size m)) 0 = Some i.
Proof.
  destruct (first_free m (S (size m)) 0) as [i |] eqn:Hf; [eauto |].
  exfalso.
  pose proof (first_free_exhausted _ _ _ Hf) as Hall.
  assert (list_to_set (seq 0 (S (size m))) ⊆ dom m) as Hsub.
  { intros k Hk. apply elem_of_list_to_set, elem_of_seq in Hk.
    apply elem_of_dom, Hall. lia. }
  apply subseteq_size in Hsub.
  rewrite size_list_to_set, length_seq, size_dom in Hsub by apply NoDup_seq.
  lia.
Qed.

Lemma lowest_free_unique i j (m : gmap nat nat) :
  lowest_free i m -> lowest_free j m -> i = j.
Proof.
  intros [Hi Hlt] [Hj Hlt'].
  destruct (decide (i < j)) as [Hij |].
  { apply Hlt' in Hij. rewrite Hi in Hij. by destruct Hij. }
  destruct (decide (j < i)) as [Hji |]; [| lia].
  apply Hlt in Hji. rewrite Hj in Hji. by destruct Hji.
Qed.

(** [create_session] on any connection: the channel is the lowest free one,
    the session is a new object of the store, bound to that channel and
    registered under it; nothing else changes. *)
Lemma create_session_spec c :
  exists i,
    lowest_free i (local_channel_map c) /\
    create_session c =
      Some (set_local_channel_map
              (<[i := length (sessions c)]> (local_channel_map c))
              (set_sessions (sessions c ++ [new_Session i]) c),
            length (sessions c)).
Proof.
  unfold create_session.
  destruct (first_free_total (local_channel_map c)) as [i Hi].
  rewrite Hi. exists i. split; [| done].
  apply first_free_found in Hi as (_ & Hnone & Hlt).
  split; [done |]. intros j Hj. apply Hlt. lia.
Qed.

Lemma lowest_free_set_seq n (m : gmap nat nat) :
  dom m = set_seq 0 n -> lowest_free n m.
Proof.
  intros Hdom. split.
  - apply not_elem_of_dom. rewrite Hdom, elem_of_set_seq. lia.
  - intros j Hj. apply elem_of_dom. rewrite Hdom, elem_of_set_seq. lia.
Qed.

Lemma create_session_dense n c :
  dom (local_channel_map c) = set_seq 0 n ->
  exists c' sid,
    create_session c = Some (c', sid) /\
    dom (local_channel_map c') = set_seq 0 (S n).
Proof.
  intros Hdom. destruct (create_session_spec c) as (i & Hfree & ->).
  rewrite (lowest_free_unique _ _ _ Hfree (lowest_free_set_seq _ _ Hdom)).
  do 2 eexists. split; [done |].
  rewrite (set_seq_S_end_union_L 0 n). unfold set_local_channel_map.
  cbn [local_channel_map]. rewrite dom_insert_L, Hdom. done.
Qed.

Lemma create_sessions_dense n N c :
  dom (local_channel_map c) = set_seq 0 n ->
  exists cN,
    create_sessions N c = Some cN /\
    dom (local_channel_map cN) = set_seq 0 (n + N).
Proof.
  revert n c. induction N as [| N IH]; intros n c Hdom; simpl.
  - exists c. by rewrite Nat.add_0_r.
  - destruct (create_session_dense _ _ Hdom) as (c' & sid & -> & Hdom').
    destruct (IH _ _ Hdom') as (cN & HcN & HdomN).
    exists cN. split; [done |]. by rewrite <- Nat.add_succ_comm.
Qed.

(** C6. [create_session] takes nothing but the connection and always returns:
    the channel [i] it allocates is the smallest number that is not a key of
    the local channel map, the session it returns is a new object bound to
    [i], and the local channel map maps [i] to it. In particular, after [N]
    sessions were created on a connection with no session and the one of
    channel [k < N] was removed, the next session gets channel [k]. *)
Theorem create_session_lowest_free_channel :
  (forall c : Connection,
     exists i c' sid,
       create_session c = Some (c', sid) /\
       lowest_free i (local_channel_map c) /\
       sessions c !! sid = None /\
       sessions c' !! sid = Some (new_Session i) /\
       ssn_channel (new_Session i) = i /\
       local_channel_map c' = <[i := sid]> (local_channel_map c)) /\
  (forall (c : Connection) (N k : nat),
     local_channel_map c = ∅ ->
     k < N ->
     exists cN c' sid,
       create_sessions N c = Some cN /\
       create_session (remove_session k cN) = Some (c', sid) /\
       local_channel_map c' !! k = Some sid /\
       ssn_channel <$> sessions c' !! sid = Some k).
Proof.
  split.
  - intros c. destruct (create_session_spec c) as (i & Hfree & ->).
    exists i. do 2 eexists. split; [done |]. simpl. split_and!; try done.
    + apply lookup_ge_None. lia.
    + rewrite lookup_app_r, Nat.sub_diag by lia. done.
  - intros c N k Hempty Hk.
    destruct (create_sessions_dense 0 N c) as (cN & HcN & Hdom).
    { rewrite Hempty, dom_empty_L. done. }
    simpl in Hdom.
    destruct (create_session_spec (remove_session k cN)) as (i & Hfree & Hcs).
    assert (i = k) as ->.
    { apply (lowest_free_unique _ _ _ Hfree). split; simpl.
      - apply lookup_delete_eq.
      - intros j Hj. rewrite lookup_delete_ne by lia.
        apply elem_of_dom. rewrite Hdom, elem_of_set_seq. lia. }
    exists cN. do 2 eexists. split; [done |]. split; [apply Hcs |]. simpl.
    split; [apply lookup_insert_eq |].
    rewrite lookup_app_r, Nat.sub_diag by lia. done.
Qed.

Lemma alter_last {A : Type} (f : A -> A) (l : list A) (x : A) :
  alter f (length l) (l ++ [x]) = l ++ [f x].
Proof.
  rewrite <- (Nat.add_0_r (length l)) at 1. by rewrite alter_app_r.
Qed.

(** C3. [on_begin] on any frame and connection. With no remote channel in
    the performative, a session is created by [create_session] on the lowest
    free local channel, the [remote_channel] of its [local.begin] is the
    channel of the frame when its [on_begin] is called, and it is the last
    object of the store. With a remote channel that is a key of the local
    channel map, the session under that key is used and the local channel
    map stays as it is. In both cases exactly the [on_begin] of that session
    is called with the frame, and the remote channel map maps the channel
    of the frame to that session. With a remote channel that is not a key
    of the local channel map, an error is thrown and nothing has changed. *)
Theorem on_begin_symmetry (frame : Frame) (c : Connection) :
  match remote_channel (performative frame) with
  | None =>
      let sid := length (sessions c) in
      exists i c',
        lowest_free i (local_channel_map c) /\
        create_session c <> None /\
        on_begin frame c = Ok c' /\
        local_channel_map c' = <[i := sid]> (local_channel_map c) /\
        ssn_begin_remote_channel
          (set_begin_remote_channel (channel frame) (new_Session i))
          = Some (channel frame) /\
        sessions c' =
          sessions c ++
          [ssn_on m_on_begin
             (set_begin_remote_channel (channel frame) (new_Session i)) frame] /\
        effects c' = effects c ++ [SessionCall sid m_on_begin frame] /\
        remote_channel_map c' = <[channel frame := sid]> (remote_channel_map c)
  | Some rc =>
      match local_channel_map c !! rc with
      | Some sid =>
          exists c',
            on_begin frame c = Ok c' /\
            local_channel_map c' = local_channel_map c /\
            sessions c' =
              alter (fun s => ssn_on m_on_begin s frame) sid (sessions c) /\
            effects c' = effects c ++ [SessionCall sid m_on_begin frame] /\
            remote_channel_map c' =
              <[channel frame := sid]> (remote_channel_map c)
      | None =>
          on_begin frame c =
            Thrown (Error ("Invalid value for remote channel " +:+ pretty rc)) c
      end
  end.
Proof.
  unfold on_begin.
  destruct (remote_channel (performative frame)) as [rc |].
  - destruct (local_channel_map c !! rc) as [sid |]; [| done].
    eexists. split; [reflexivity |]. done.
  - destruct (create_session_spec c) as (i & Hfree & Hcs).
    rewrite Hcs. cbn zeta. exists i. eexists.
    split; [done |]. split; [done |]. split; [reflexivity |]. simpl.
    rewrite !alter_last. done.
Qed.

(** ** Invariants of the connections a program can be in *)

(** A property of connections that survives the assignments the methods
    make survives the methods, and so holds of every connection a program
    can be in. The assignments are taken one field at a time; the three
    that go together in the code are taken together: the socket and the
    pending queue of [init], the session and the channel of
    [create_session], [_register], the start of a pass, and the binding of
    a channel by [on_begin]. Each comes with what the code guarantees where
    it makes the assignment. *)
Section Invariant.
Variable P : Connection -> Prop.
Hypothesis P_new : forall options k n uuid, P (new_Connection options k n uuid).
Hypothesis P_state : forall v c, P c -> P (set_state v c).
Hypothesis P_attach : forall sock q c,
  P c -> P (set_pending (Some q) (set_socket (Some sock) c)).
Hypothesis P_queue : forall q c,
  P c -> is_Some (pending c) -> P (set_pending (Some q) c).
Hypothesis P_listeners : forall v c, P c -> P (set_listeners v c).
Hypothesis P_sessions : forall v c,
  P c -> length v = length (sessions c) -> P (set_sessions v c).
Hypothesis P_create : forall i c,
  P c ->
  lowest_free i (local_channel_map c) ->
  P (set_local_channel_map
       (<[i := length (sessions c)]> (local_channel_map c))
       (set_sessions (sessions c ++ [new_Session i]) c)).
Hypothesis P_remote_open : forall v c, P c -> P (set_remote_open v c).
Hypothesis P_remote_close : forall v c, P c -> P (set_remote_close v c).
Hypothesis P_previous_input : forall v c, P c -> P (set_previous_input v c).
Hypothesis P_header_received : forall h c,
  P c -> header_received c = None -> P (set_header_received (Some h) c).
Hypothesis P_effects : forall es c,
  P c ->
  Forall (fun e => is_begin_call e = false) es ->
  Forall (fun e => is_socket_effect e = false) es ->
  P (add_effects es c).
Hypothesis P_written : forall es c,
  P c -> Forall (fun e => is_socket_effect e = true) es -> P (add_effects es c).
Hypothesis P_register : forall c, P c -> P (_register c).
Hypothesis P_pass : forall n c,
  P c -> scheduled c = S n -> P (set_registered false (set_scheduled n c)).
Hypothesis P_bind : forall sid frame c,
  P c ->
  (exists k, local_channel_map c !! k = Some sid) ->
  P (set_remote_channel_map (<[channel frame := sid]> (remote_channel_map c))
       (session_call sid m_on_begin frame c)).

Lemma P_effect e c :
  P c -> is_begin_call e = false -> is_socket_effect e = false ->
  P (add_effects [e] c).
Proof. intros Hc He He'. apply P_effects; [done | |]; by constructor. Qed.

Lemma P_socket_effect e c :
  P c -> is_socket_effect e = true -> P (add_effects [e] c).
Proof. intros Hc He. apply P_written; [done |]. by constructor. Qed.

Lemma P_open c : P c -> P (open c).
Proof.
  intros Hc. unfold open. destruct (st_open (state c)) as [[] st]; auto.
Qed.

Lemma P_close c : P c -> P (close c).
Proof.
  intros Hc. unfold close. destruct (st_close (state c)) as [[] st]; auto.
Qed.

Lemma P_dispatch name ctx c : P c -> P (dispatch name ctx c).
Proof.
  intros Hc. destruct (dispatch_effects name ctx c) as (es & -> & Hes).
  apply P_effects; [done | |]; apply Forall_forall;
    intros e [[l ->] | [k ->]]%Hes; done.
Qed.

Lemma P_write_pending q c : P c -> P (write_pending q c).
Proof.
  revert c. induction q as [| b q IH]; intros c Hc; simpl; [done |].
  apply IH. by apply P_socket_effect.
Qed.

Lemma P_init sock c : P c -> P (init sock c).
Proof.
  intros Hc. unfold init. apply P_open. simpl.
  apply P_queue; [by apply P_attach | by eexists].
Qed.

Lemma P_create_session c c' sid :
  P c -> create_session c = Some (c', sid) -> P c'.
Proof.
  intros Hc. destruct (create_session_spec c) as (i & Hfree & ->).
  intros [= <- _]. by apply P_create.
Qed.

Lemma P_session_call sid m frame c :
  P c -> is_begin_call (SessionCall sid m frame) = false ->
  P (session_call sid m frame c).
Proof.
  intros Hc Hm. unfold session_call.
  apply P_sessions; [by apply P_effect |]. simpl. apply length_alter.
Qed.

Lemma keeps_output buffer : keeps P (output buffer).
Proof.
  intros c Hc. unfold output.
  destruct (socket c), (pending c) as [q |] eqn:Hq; simpl; [| done | | done].
  - assert (P (socket_write buffer (set_pending (Some []) (write_pending q c)))).
    { apply P_socket_effect; [| done].
      apply P_queue; [by apply P_write_pending |].
      rewrite write_pending_effects. simpl. by rewrite Hq. }
    case_match; simpl; [by apply P_socket_effect | done].
  - apply P_queue; [done | by rewrite Hq].
Qed.

Lemma keeps_write_frame ch frame pl : keeps P (_write_frame ch frame pl).
Proof.
  intros c Hc. unfold _write_frame. case_match. by apply keeps_output.
Qed.

Lemma keeps_write_frames outs : keeps P (write_frames outs).
Proof.
  induction outs as [| o outs IH]; intros c Hc; simpl; [done |].
  eapply leaves_bind; [by apply keeps_write_frame | apply IH].
Qed.

Lemma keeps_session_process k : keeps P (session_process k).
Proof.
  intros c Hc. unfold session_process.
  repeat case_match; simpl; try done.
  apply keeps_write_frames. apply P_effect; [| done | done].
  apply P_sessions; [done |]. apply length_insert.
Qed.

Lemma keeps_process_sessions ks : keeps P (process_sessions ks).
Proof.
  induction ks as [| k ks IH]; intros c Hc; simpl; [done |].
  eapply leaves_bind; [by apply keeps_session_process | apply IH].
Qed.

Lemma keeps_process_once : keeps P process_once.
Proof.
  intros c Hc. unfold process_once, _write_open, _write_close.
  destruct (st_need_open (state c)) as [need st].
  eapply leaves_bind.
  { destruct need; [apply keeps_write_frame | simpl]; auto. }
  intros c1 Hc1. eapply leaves_bind; [by apply keeps_process_sessions |].
  intros c2 Hc2. destruct (st_need_close (state c2)) as [need' st'].
  destruct need'; [apply keeps_write_frame | simpl]; auto.
Qed.

Lemma keeps_process_loop fuel : keeps P (process_loop fuel).
Proof.
  induction fuel as [| fuel IH]; intros c Hc; simpl; [done |].
  eapply leaves_bind; [by apply keeps_process_once |].
  intros c1 Hc1. destruct (negb _); [by apply IH | done].
Qed.

Lemma keeps_run_tick fuel : keeps P (run_tick fuel).
Proof.
  intros c Hc. unfold run_tick, _process.
  destruct (scheduled c) as [| n] eqn:Hn; [done |].
  apply keeps_process_loop. by apply P_pass.
Qed.

Lemma keeps_on_begin frame : keeps P (on_begin frame).
Proof.
  intros c Hc. unfold on_begin.
  eapply (leaves_bind
            (fun r => P r.1 /\ exists k, local_channel_map r.1 !! k = Some r.2)).
  - destruct (remote_channel (performative frame)) as [rc |].
    + destruct (local_channel_map c !! rc) as [sid |] eqn:Hrc; simpl; eauto.
    + destruct (create_session_spec c) as (i & Hfree & ->). simpl. split.
      * apply P_sessions; [by apply P_create |]. apply length_alter.
      * exists i. apply lookup_insert_eq.
  - intros [c1 sid] [Hc1 Hk]. simpl. by apply P_bind.
Qed.

Lemma keeps_delegate_to_session d frame : keeps P (delegate_to_session d frame).
Proof.
  intros c Hc. unfold delegate_to_session.
  case_match; simpl; [| done]. by apply P_session_call.
Qed.

Lemma keeps_on_open frame : keeps P (on_open frame).
Proof.
  intros c Hc. unfold on_open.
  destruct (st_remote_opened (state c)) as [[] st]; simpl;
    auto using P_open, P_dispatch.
Qed.

Lemma keeps_on_close frame : keeps P (on_close frame).
Proof.
  intros c Hc. unfold on_close.
  destruct (st_remote_closed (state c)) as [[] st]; simpl;
    auto using P_close, P_dispatch.
Qed.

Lemma keeps_performative_dispatch frame :
  keeps P (performative_dispatch frame).
Proof.
  unfold performative_dispatch. intros c Hc.
  destruct (perf_name (performative frame));
    by first [apply keeps_on_open | apply keeps_on_close
             | apply keeps_on_begin | apply keeps_delegate_to_session].
Qed.

Lemma keeps_input_frames fuel buffer offset :
  keeps P (input_frames fuel buffer offset).
Proof.
  revert offset. induction fuel as [| fuel IH]; intros offset c Hc; simpl;
    [done |].
  repeat case_match; simpl; auto.
  eapply leaves_bind; [by apply keeps_performative_dispatch | apply IH].
Qed.

Lemma keeps_input fuel buff : keeps P (input fuel buff).
Proof.
  intros c Hc. unfold input.
  repeat case_match; simpl; auto; apply keeps_input_frames; auto.
Qed.

Lemma keeps_exec call : keeps P (exec call).
Proof.
  intros c Hc.
  destruct call as [name l | sock | | | | | b | fuel b | frame | fuel]; simpl.
  - unfold on. auto.
  - by apply P_init.
  - by apply P_open.
  - by apply P_close.
  - by apply P_register.
  - destruct (create_session c) as [[c1 sid] |] eqn:Hcs; simpl;
      eauto using P_create_session.
  - by apply keeps_output.
  - by apply keeps_input.
  - by apply keeps_performative_dispatch.
  - by apply keeps_run_tick.
Qed.

Lemma reachable_invariant c : reachable c -> P c.
Proof.
  induction 1 as [| call c c' _ IH Hex | call e c c' _ IH Hex]; [done | |].
  - pose proof (keeps_exec call c IH) as Hk. by rewrite Hex in Hk.
  - pose proof (keeps_exec call c IH) as Hk. by rewrite Hex in Hk.
Qed.

End Invariant.

(** *** Scheduling *)

Lemma reachable_one_pass c : reachable c -> one_pass c.
Proof.
  apply reachable_invariant; unfold one_pass; try done.
  - intros c0 Hc0. unfold _register.
    destruct (registered c0) eqn:Hr; simpl; [by rewrite Hr | by rewrite Hc0].
  - intros n c0 Hc0 Hn. simpl. destruct (registered c0); lia.
Qed.

Lemma register_registered c : registered c = true -> _register c = c.
Proof. intros Hr. unfold _register. by rewrite Hr. Qed.

Lemma open_registered c :
  registered c = true ->
  registered (open c) = true /\ scheduled (open c) = scheduled c.
Proof.
  intros Hr. unfold open. destruct (st_open (state c)) as [[] st]; [| done].
  by rewrite register_registered.
Qed.

Lemma close_registered c :
  registered c = true ->
  registered (close c) = true /\ scheduled (close c) = scheduled c.
Proof.
  intros Hr. unfold close. destruct (st_close (state c)) as [[] st]; [| done].
  by rewrite register_registered.
Qed.

Lemma open_close_registered calls c :
  registered c = true ->
  registered (open_close calls c) = true /\
  scheduled (open_close calls c) = scheduled c.
Proof.
  revert c. induction calls as [| [] calls IH]; intros c Hr; simpl; [done | |].
  - destruct (open_registered c Hr) as [Hr' <-]. by apply IH.
  - destruct (close_registered c Hr) as [Hr' <-]. by apply IH.
Qed.

(** C8. On every connection a program can be in, at most one pass is
    scheduled and not yet begun, and one is exactly when [registered] is
    set. While one is, [_register] changes nothing and no sequence of
    [open] and [close] calls schedules another; while none is, [_register]
    schedules one and sets the flag. The turn of the event loop that begins
    the pass takes it off the scheduled ones and the pass clears the flag
    before anything else. *)
Theorem one_pass_outstanding (c : Connection) :
  reachable c ->
  scheduled c <= 1 /\
  (registered c = true <-> scheduled c = 1) /\
  (scheduled c = 1 ->
     _register c = c /\
     (forall calls, scheduled (open_close calls c) = 1) /\
     (forall fuel,
        run_tick fuel c =
          process_loop fuel (set_registered false (set_scheduled 0 c)))) /\
  (scheduled c = 0 ->
     registered (_register c) = true /\ scheduled (_register c) = 1).
Proof.
  intros Hone%reachable_one_pass. unfold one_pass in Hone.
  split; [destruct (registered c); lia |].
  split; [destruct (registered c); split; (done || lia) |].
  split.
  - intros Hs. assert (registered c = true) as Hr.
    { destruct (registered c); [done | lia]. }
    split; [by apply register_registered |]. split.
    + intros calls. by destruct (open_close_registered calls c Hr) as [_ ->].
    + intros fuel. unfold run_tick. by rewrite Hs.
  - intros Hs. assert (registered c = false) as Hr.
    { destruct (registered c); [lia | done]. }
    unfold _register. rewrite Hr. simpl. by rewrite Hs.
Qed.

(** *** The remote channel map *)

Lemma last_begin_app ch es es' :
  last_begin ch (es ++ es') =
    match last_begin ch es' with
    | Some sid => Some sid
    | None => last_begin ch es
    end.
Proof.
  induction es as [| e es IH]; simpl.
  - by destruct (last_begin ch es').
  - rewrite IH. by destruct (last_begin ch es').
Qed.

Lemma last_begin_other ch es :
  Forall (fun e => is_begin_call e = false) es -> last_begin ch es = None.
Proof.
  induction 1 as [| e es He _ IH]; simpl; [done |]. rewrite IH.
  by destruct e as [| | | | sid [] f |].
Qed.

Lemma last_begin_is_Some ch es :
  is_Some (last_begin ch es) <->
  exists sid f, SessionCall sid m_on_begin f ∈ es /\ channel f = ch.
Proof.
  induction es as [| e es IH]; simpl.
  - split; [by intros [? [=]] | by intros (? & ? & ?%elem_of_nil & _)].
  - destruct (last_begin ch es) as [sid |] eqn:Hlast.
    + split; [| eauto]. intros _.
      destruct (proj1 IH) as (sid' & f & Hin & Hf); [eauto |].
      exists sid', f. split; [by right | done].
    + split.
      * intros Hsome. destruct e as [| | | | sid [] f |];
          try by destruct Hsome.
        case_decide; [| by destruct Hsome].
        exists sid, f. split; [by left | done].
      * intros (sid & f & [<- | Hin]%elem_of_cons & Hf).
        -- rewrite decide_True by done. eauto.
        -- destruct (proj2 IH) as [? [=]]. eauto.
Qed.

Lemma reachable_follows_begin c : reachable c -> follows_begin c.
Proof.
  apply reachable_invariant; unfold follows_begin; try done.
  - intros es c0 Hc0 Hes _ ch. simpl.
    by rewrite last_begin_app, (last_begin_other ch es), Hc0.
  - intros es c0 Hc0 Hes ch. simpl.
    rewrite last_begin_app, (last_begin_other ch es), Hc0; [done |].
    eapply Forall_impl; [exact Hes |]. by intros [].
  - intros c0 Hc0 ch. unfold _register.
    destruct (negb _); simpl; apply Hc0.
  - intros sid frame c0 Hc0 _ ch. simpl. rewrite last_begin_app. simpl.
    destruct (decide (channel frame = ch)) as [-> | Hne].
    + by rewrite lookup_insert_eq.
    + by rewrite lookup_insert_ne, Hc0.
Qed.

Lemma reachable_bound_iff_begun c ch :
  reachable c -> (remote_channel_map c !! ch = None <-> ~ begun ch c).
Proof.
  intros Hc%reachable_follows_begin. rewrite Hc. unfold begun.
  rewrite <- last_begin_is_Some, eq_None_not_Some. done.
Qed.

Lemma on_begin_bind frame c c' :
  on_begin frame c = Ok c' ->
  exists sid,
    effects c' = effects c ++ [SessionCall sid m_on_begin frame] /\
    remote_channel_map c' = <[channel frame := sid]> (remote_channel_map c).
Proof.
  unfold on_begin.
  destruct (remote_channel (performative frame)) as [rc |].
  - destruct (local_channel_map c !! rc) as [sid |]; [| done].
    intros [= <-]. by exists sid.
  - destruct (create_session_spec c) as (i & _ & ->).
    intros [= <-]. by eexists.
Qed.

(** C9, as the code has it. On every connection a program can be in, the
    entry of a channel in the remote channel map is the session whose
    [on_begin] received the latest begin frame of that channel, and there is
    none before the first such frame: every begin frame that [on_begin]
    handles without an error assigns the entry of its channel (a later one
    replaces the session an earlier one left), and nothing else changes the
    remote channel map. *)
Theorem remote_binding_follows_begin :
  (forall c : Connection,
     reachable c ->
     forall ch, remote_channel_map c !! ch = last_begin ch (effects c)) /\
  (forall (frame : Frame) (c c' : Connection),
     on_begin frame c = Ok c' ->
     exists sid,
       effects c' = effects c ++ [SessionCall sid m_on_begin frame] /\
       remote_channel_map c' =
         <[channel frame := sid]> (remote_channel_map c)).
Proof.
  split; [apply reachable_follows_begin | apply on_begin_bind].
Qed.

(** *** The processing pass *)

Lemma write_frame_bytes ch frame pl c :
  _write_frame ch frame pl c = output (frame_bytes ch frame pl) c.
Proof.
  unfold _write_frame, frame_bytes. by destruct (write_amqp_frame _ _ _ _).
Qed.

Lemma set_pending_same q c : pending c = Some q -> set_pending (Some q) c = c.
Proof. destruct c; simpl. by intros ->. Qed.

Lemma add_effects_nil c : add_effects [] c = c.
Proof.
  unfold add_effects, set_effects. rewrite app_nil_r. by destruct c.
Qed.

Lemma add_effects_app es es' c :
  add_effects es' (add_effects es c) = add_effects (es ++ es') c.
Proof. unfold add_effects, set_effects. simpl. by rewrite app_assoc. Qed.

(** [output] once the pending queue is empty. *)
Lemma output_flushed b c :
  is_Some (socket c) ->
  pending c = Some [] ->
  output b c = Ok (add_effects (wrote (is_closed c) b) c).
Proof.
  intros [sock Hs] Hq. unfold output. rewrite Hs, Hq. simpl.
  rewrite (set_pending_same _ _ Hq). unfold is_closed, wrote. simpl.
  destruct (st_is_closed (state c)); [| done].
  unfold socket_end, socket_write. by rewrite add_effects_app.
Qed.

Lemma write_frames_flushed outs c :
  is_Some (socket c) ->
  pending c = Some [] ->
  exists mid, write_frames outs c = Ok (add_effects mid c).
Proof.
  revert c. induction outs as [| o outs IH]; intros c Hs Hq; simpl.
  - exists []. by rewrite add_effects_nil.
  - rewrite write_frame_bytes, output_flushed by done. simpl.
    destruct (IH (add_effects (wrote (is_closed c) (frame_bytes (out_channel o)
      (described (out_frame o)) (out_payload o))) c)) as [mid ->]; [done.. |].
    eexists. by rewrite add_effects_app.
Qed.

(** The sessions of the keys [ks], processed on a connection with a socket
    and an empty pending queue: the loop returns; it has changed session
    objects and called out, nothing else; every key with a session had that
    session processed. *)
Lemma process_sessions_flushed ks c :
  is_Some (socket c) ->
  pending c = Some [] ->
  exists ss mid,
    process_sessions ks c = Ok (add_effects mid (set_sessions ss c)) /\
    length ss = length (sessions c) /\
    (ks = [] -> ss = sessions c /\ mid = []) /\
    (forall k sid,
       k ∈ ks -> local_channel_map c !! k = Some sid ->
       sid < length (sessions c) -> SessionProcess sid ∈ mid).
Proof.
  revert c. induction ks as [| k ks IH]; intros c Hs Hq; simpl.
  - exists (sessions c), []. rewrite add_effects_nil.
    split; [by destruct c |]. split; [done |]. split; [done |].
    intros k sid Hk. by apply elem_of_nil in Hk.
  - unfold session_process.
    destruct (local_channel_map c !! k) as [sid |] eqn:Hk.
    2:{ simpl. destruct (IH c Hs Hq) as (ss & mid & -> & Hlen & _ & Hall).
        exists ss, mid. split; [done |]. split; [done |]. split; [done |].
        intros k' sid' [-> | Hin]%elem_of_cons; [congruence | eauto]. }
    destruct (sessions c !! sid) as [s |] eqn:Hsid.
    2:{ simpl. destruct (IH c Hs Hq) as (ss & mid & -> & Hlen & _ & Hall).
        exists ss, mid. split; [done |]. split; [done |]. split; [done |].
        intros k' sid' [-> | Hin]%elem_of_cons; [| eauto].
        rewrite Hk. intros [= <-] Hlt%lookup_lt_is_Some. rewrite Hsid in Hlt.
        by destruct Hlt. }
    destruct (ssn_process s) as [s' outs].
    destruct (write_frames_flushed outs
                (add_effects [SessionProcess sid]
                   (set_sessions (<[sid := s']> (sessions c)) c)))
      as [mid1 ->]; [done.. |].
    simpl. rewrite add_effects_app.
    destruct (IH (add_effects ([SessionProcess sid] ++ mid1)
                    (set_sessions (<[sid := s']> (sessions c)) c)))
      as (ss & mid & -> & Hlen & _ & Hall); [done.. |].
    exists ss, (([SessionProcess sid] ++ mid1) ++ mid).
    split.
    { unfold add_effects, set_effects, set_sessions. simpl.
      by rewrite <- app_assoc. }
    split; [by rewrite Hlen; simpl; rewrite length_insert |].
    split; [done |].
    intros k' sid' [-> | Hin]%elem_of_cons Hk' Hlt.
    + assert (sid' = sid) as -> by congruence. set_solver.
    + apply elem_of_app. right. apply (Hall k'); [done.. |].
      simpl. by rewrite length_insert.
Qed.

Lemma for_in_keys_elem k (m : gmap nat nat) :
  k ∈ for_in_keys m <-> is_Some (m !! k).
Proof.
  unfold for_in_keys. rewrite merge_sort_Permutation, elem_of_elements.
  apply elem_of_dom.
Qed.

Lemma for_in_keys_empty : for_in_keys ∅ = [].
Proof.
  unfold for_in_keys. by rewrite dom_empty_L, elements_empty.
Qed.

(** The loop of [_process] runs its body until the tracker reports the
    connection settled: [n] steps suffice for [n] iterations. *)
Lemma process_loop_iterations n c c' fuel :
  iterations n c c' -> n <= fuel -> process_loop fuel c = Ok c'.
Proof.
  intros Hit. revert fuel.
  induction Hit as [c c' Hp Hs | n c c1 c' Hp Hs _ IH]; intros fuel Hfuel.
  - destruct fuel as [| fuel]; [lia |]. simpl. rewrite Hp. simpl.
    by rewrite Hs.
  - destruct fuel as [| fuel]; [lia |]. simpl. rewrite Hp. simpl.
    rewrite Hs. simpl. apply IH. lia.
Qed.

Lemma output_attached_eq b sock q c :
  socket c = Some sock ->
  pending c = Some q ->
  output b c =
    Ok (add_effects (map SocketWrite q ++ wrote (is_closed c) b)
          (set_pending (Some []) c)).
Proof.
  intros Hs Hq. unfold output. rewrite Hs, Hq, write_pending_effects.
  unfold is_closed, wrote, socket_end, socket_write, add_effects, set_effects.
  simpl. destruct (st_is_closed (state c)); simpl; by rewrite <- ?app_assoc.
Qed.

Lemma open_close_scheduled c s1 s2 :
  one_pass c ->
  st_open (state c) = (true, s1) ->
  st_close s1 = (true, s2) ->
  close (open c) = set_scheduled 1 (set_registered true (set_state s2 c)).
Proof.
  unfold one_pass, open. intros Hone -> Hclose.
  assert (forall c0, state c0 = s1 ->
            close c0 = _register (set_state s2 c0)) as Hc.
  { intros c0 Hc0. unfold close. by rewrite Hc0, Hclose. }
  rewrite Hc by (unfold _register; by destruct (negb _)).
  unfold _register. destruct (registered c) eqn:Hr; simpl.
  - rewrite Hr. simpl. destruct c; simpl in *; by subst.
  - destruct c; simpl in *; by subst.
Qed.

(** *** What the body of the loop hands over *)

Lemma rest_fields c c' :
  rest c' = rest c ->
  state c' = state c /\ sessions c' = sessions c /\
  local_channel_map c' = local_channel_map c /\ socket c' = socket c /\
  local_open c' = local_open c /\ local_close c' = local_close c /\
  registered c' = registered c /\ scheduled c' = scheduled c.
Proof.
  intros Hr. split_and!.
  - exact (f_equal state Hr).
  - exact (f_equal sessions Hr).
  - exact (f_equal local_channel_map Hr).
  - exact (f_equal socket Hr).
  - exact (f_equal local_open Hr).
  - exact (f_equal local_close Hr).
  - exact (f_equal registered Hr).
  - exact (f_equal scheduled Hr).
Qed.

Lemma written_writes (q : list Buffer) :
  omap (fun e => match e with SocketWrite b => Some b | _ => None end)
    (map SocketWrite q) = q.
Proof. induction q as [| b q IH]; [done |]. cbn. by f_equal. Qed.

Lemma processed_writes (q : list Buffer) :
  omap (fun e => match e with SessionProcess sid => Some sid | _ => None end)
    (map SocketWrite q) = [].
Proof. by induction q. Qed.

Lemma written_add es c :
  written (add_effects es c) =
    written c ++
    omap (fun e => match e with SocketWrite b => Some b | _ => None end) es.
Proof. unfold written. simpl. apply omap_app. Qed.

Lemma processed_add es c :
  processed (add_effects es c) =
    processed c ++
    omap (fun e => match e with SessionProcess sid => Some sid | _ => None end)
      es.
Proof. unfold processed. simpl. apply omap_app. Qed.

(** [output] on a connection with a pending queue returns, and the buffer
    is the last of the buffers handed over; with a socket the queue is
    empty afterwards. *)
Lemma output_outbound b c :
  is_Some (pending c) ->
  exists c',
    output b c = Ok c' /\
    rest c' = rest c /\
    is_Some (pending c') /\
    outbound c' = outbound c ++ [b] /\
    processed c' = processed c /\
    (is_Some (socket c) -> pending c' = Some []).
Proof.
  intros [q Hq]. destruct (socket c) as [sock |] eqn:Hs.
  - rewrite (output_attached_eq b sock q) by done.
    eexists. split; [reflexivity |]. split; [done |]. split; [by eexists |].
    split; [| split; [| done]].
    + unfold outbound. rewrite written_add, Hq, omap_app, written_writes.
      change (written (set_pending (Some []) c)) with (written c).
      change (pending (add_effects _ (set_pending (Some []) c)))
        with (Some ([] : list Buffer)).
      unfold wrote. destruct (is_closed c); simpl;
        by rewrite app_nil_r, <- app_assoc.
    + rewrite processed_add, omap_app, processed_writes.
      change (processed (set_pending (Some []) c)) with (processed c).
      unfold wrote. destruct (is_closed c); simpl; by rewrite app_nil_r.
  - rewrite (output_queued b q) by done.
    eexists. split; [reflexivity |]. split; [done |]. split; [by eexists |].
    unfold outbound. rewrite Hq. simpl.
    split; [by rewrite app_assoc |]. split; [done |]. by intros [? [=]].
Qed.

Lemma write_frames_outbound outs c :
  is_Some (pending c) ->
  exists c',
    write_frames outs c = Ok c' /\
    rest c' = rest c /\
    is_Some (pending c') /\
    outbound c' = outbound c ++ map out_bytes outs /\
    processed c' = processed c /\
    (is_Some (socket c) -> pending c = Some [] -> pending c' = Some []).
Proof.
  revert c. induction outs as [| o outs IH]; intros c Hq; simpl.
  - exists c. by rewrite app_nil_r.
  - rewrite write_frame_bytes.
    destruct (output_outbound (frame_bytes (out_channel o)
                (described (out_frame o)) (out_payload o)) c Hq)
      as (c1 & -> & Hr1 & Hq1 & Ho1 & Hp1 & Hf1).
    simpl. destruct (IH c1 Hq1) as (c2 & -> & Hr2 & Hq2 & Ho2 & Hp2 & Hf2).
    exists c2. split; [done |]. split; [congruence |]. split; [done |].
    split; [by rewrite Ho2, Ho1, <- app_assoc |]. split; [congruence |].
    intros Hs _. apply Hf2; [| by apply Hf1].
    by destruct (rest_fields c c1 Hr1) as (_ & _ & _ & -> & _).
Qed.

Lemma rest_set_sessions ss c c' :
  rest c' = rest c -> rest (set_sessions ss c') = rest (set_sessions ss c).
Proof. intros Hr. exact (f_equal (set_sessions ss) Hr). Qed.

(** The loop over the sessions, on a connection with a pending queue: it
    returns, the session store is the one the sessions leave, the sessions
    asked and the frames handed over are theirs, in order, and nothing else
    has changed. *)
Lemma process_sessions_outbound ks :
  forall c,
    is_Some (pending c) ->
    let fl := sessions_flush ks (local_channel_map c) (sessions c) in
    exists c',
      process_sessions ks c = Ok c' /\
      rest c' = rest (set_sessions fl.1 c) /\
      is_Some (pending c') /\
      outbound c' = outbound c ++ map out_bytes fl.2.2 /\
      processed c' = processed c ++ fl.2.1 /\
      (is_Some (socket c) -> pending c = Some [] -> pending c' = Some []).
Proof.
  induction ks as [| k ks IH]; intros c Hq; simpl.
  - exists c. rewrite !app_nil_r. by split_and!.
  - unfold session_process.
    destruct (local_channel_map c !! k) as [sid |] eqn:Hk; [| by apply IH].
    destruct (sessions c !! sid) as [s |] eqn:Hsid; [| by apply IH].
    destruct (ssn_process s) as [s' outs].
    set (c1 := add_effects [SessionProcess sid]
                 (set_sessions (<[sid := s']> (sessions c)) c)).
    destruct (write_frames_outbound outs c1 Hq)
      as (c2 & -> & Hr2 & Hq2 & Ho2 & Hp2 & Hf2).
    simpl.
    destruct (rest_fields c1 c2 Hr2) as (_ & Hss & Hm & Hsock & _).
    destruct (IH c2 Hq2) as (c3 & -> & Hr3 & Hq3 & Ho3 & Hp3 & Hf3).
    rewrite Hss, Hm in Hr3, Ho3, Hp3. simpl in Hr3, Ho3, Hp3.
    destruct (sessions_flush ks (local_channel_map c)
                (<[sid := s']> (sessions c))) as [ss [sids outs']].
    simpl in *. exists c3. split; [done |]. split.
    { rewrite Hr3. by apply (rest_set_sessions ss c1 c2) in Hr2. }
    split; [done |]. split.
    { rewrite Ho3, Ho2, map_app, <- app_assoc. f_equal.
      unfold outbound, written. simpl. rewrite omap_app. simpl.
      by rewrite app_nil_r. }
    split.
    { rewrite Hp3, Hp2. unfold processed. simpl. rewrite omap_app. simpl.
      by rewrite <- app_assoc. }
    intros Hs Hnil. apply Hf3; [by rewrite Hsock | by apply Hf2].
Qed.

(** One run of the body of the loop, on a connection with a pending queue.
    It returns. The tracker was asked [need_open] and then [need_close];
    the buffers handed over are the open frame on channel 0 if [need_open]
    answered true, then the frames of the sessions, then the close frame on
    channel 0 if [need_close] answered true, and no other; the session of
    every key of the local channel map was asked to process, in the order
    of the keys; nothing else has changed. *)
Lemma process_once_outbound c :
  is_Some (pending c) ->
  let no := st_need_open (state c) in
  let nc := st_need_close no.2 in
  let fl := sessions_flush (for_in_keys (local_channel_map c))
              (local_channel_map c) (sessions c) in
  exists c',
    process_once c = Ok c' /\
    rest c' = rest (set_sessions fl.1 (set_state nc.2 c)) /\
    is_Some (pending c') /\
    outbound c' =
      outbound c ++
      (if no.1 then [frame_bytes 0 (described (local_open c)) None] else []) ++
      map out_bytes fl.2.2 ++
      (if nc.1 then [frame_bytes 0 (described (local_close c)) None] else []) /\
    processed c' = processed c ++ fl.2.1 /\
    (is_Some (socket c) -> pending c = Some [] -> pending c' = Some []).
Proof.
  intros Hq no nc fl. subst no nc fl. unfold process_once.
  destruct (st_need_open (state c)) as [need st1]. cbn [fst snd].
  assert (exists c1,
            (if need then _write_open (set_state st1 c)
             else Ok (set_state st1 c)) = Ok c1 /\
            rest c1 = rest (set_state st1 c) /\
            is_Some (pending c1) /\
            outbound c1 =
              outbound c ++
              (if need then [frame_bytes 0 (described (local_open c)) None]
               else []) /\
            processed c1 = processed c /\
            (is_Some (socket c) -> pending c = Some [] ->
             pending c1 = Some [])) as (c1 & -> & Hr1 & Hq1 & Ho1 & Hp1 & Hf1).
  { destruct need.
    - unfold _write_open. rewrite write_frame_bytes.
      match goal with
      | |- context [output ?b ?x] =>
          destruct (output_outbound b x Hq) as (c1 & -> & ? & ? & ? & ? & Hf)
      end.
      exists c1. split_and!; try done. intros Hs _. by apply Hf.
    - exists (set_state st1 c). rewrite app_nil_r. by split_and!. }
  cbn [bind].
  destruct (rest_fields _ _ Hr1) as (Hst & Hss & Hm & Hsock & _ & Hlc & _).
  destruct (process_sessions_outbound (for_in_keys (local_channel_map c1))
              c1 Hq1) as (c2 & -> & Hr2 & Hq2 & Ho2 & Hp2 & Hf2).
  rewrite Hss, Hm in Hr2, Ho2, Hp2. simpl in Hr2, Ho2, Hp2, Hst, Hsock, Hlc.
  cbn [bind].
  destruct (rest_fields _ _ Hr2) as (Hst2 & _ & _ & Hsock2 & _ & Hlc2 & _).
  simpl in Hst2, Hsock2, Hlc2. rewrite Hst2, Hst.
  destruct (st_need_close st1) as [need' st2]. cbn [fst snd].
  set (fl := sessions_flush (for_in_keys (local_channel_map c))
               (local_channel_map c) (sessions c)) in *.
  assert (rest (set_state st2 c2) = rest (set_sessions fl.1 (set_state st2 c)))
    as Hr3.
  { transitivity (set_state st2 (rest c2)); [done |]. rewrite Hr2.
    transitivity (set_sessions fl.1 (set_state st2 (rest c1))); [done |].
    by rewrite Hr1. }
  destruct need'.
  - unfold _write_close. rewrite write_frame_bytes.
    match goal with
    | |- context [output ?b ?x] =>
        destruct (output_outbound b x Hq2) as (c3 & -> & Hr & ? & Ho & Hp & Hf)
    end.
    change (outbound (set_state st2 c2)) with (outbound c2) in Ho.
    change (processed (set_state st2 c2)) with (processed c2) in Hp.
    change (local_close (set_state st2 c2)) with (local_close c2) in Ho.
    exists c3. split; [done |]. split; [congruence |]. split; [done |].
    split; [by rewrite Ho, Ho2, Ho1, Hlc2, Hlc, <- !app_assoc |].
    split; [by rewrite Hp, Hp2, Hp1 |].
    intros Hs _. apply Hf. simpl. by rewrite Hsock2, Hsock.
  - exists (set_state st2 c2). split; [done |]. split; [done |].
    split; [done |].
    change (outbound (set_state st2 c2)) with (outbound c2).
    change (processed (set_state st2 c2)) with (processed c2).
    split; [by rewrite Ho2, Ho1, app_nil_r, <- !app_assoc |].
    split; [by rewrite Hp2, Hp1 |].
    intros Hs Hnil. simpl. apply Hf2; [by rewrite Hsock | by apply Hf1].
Qed.

(** When the pass returns, the tracker reports the connection settled. *)
Lemma process_loop_settled fuel c :
  leaves (fun c' => st_has_settled (state c') = true) (fun _ => True)
    (process_loop fuel c).
Proof.
  revert c. induction fuel as [| fuel IH]; intros c; simpl; [done |].
  destruct (process_once c) as [c1 | |]; simpl; [| done | done].
  destruct (st_has_settled (state c1)) eqn:Hs; simpl; [done | apply IH].
Qed.

(** [open] and then [close] on a connection with a socket, when both are
    fresh transitions for the tracker, both frames are then needed and the
    connection is settled once they are written: the two calls leave exactly
    one pass scheduled, and that pass runs the body once, writing what was
    pending, then the open frame, then what the sessions flush, then the
    close frame. *)
Lemma open_close_pass_attached
    (c : Connection) (sock : nat) (q : list Buffer)
    (s1 s2 s3 s4 : EndpointState) :
  one_pass c ->
  socket c = Some sock ->
  pending c = Some q ->
  st_open (state c) = (true, s1) ->
  st_close s1 = (true, s2) ->
  st_need_open s2 = (true, s3) ->
  st_need_close s3 = (true, s4) ->
  st_has_settled s4 = true ->
  let c1 := close (open c) in
  scheduled c1 = 1 /\
  forall fuel, exists c' mid,
    run_tick (S fuel) c1 = Ok c' /\
    iterations 1 (set_registered false (set_scheduled 0 c1)) c' /\
    scheduled c' = 0 /\
    registered c' = false /\
    effects c' =
      effects c ++ map SocketWrite q ++
      wrote (st_is_closed s3) (frame_bytes 0 (described (local_open c)) None) ++
      mid ++
      wrote (st_is_closed s4) (frame_bytes 0 (described (local_close c)) None) /\
    (local_channel_map c = ∅ -> mid = []) /\
    (forall k sid,
       local_channel_map c !! k = Some sid ->
       sid < length (sessions c) ->
       SessionProcess sid ∈ mid).
Proof.
  intros Hone Hs Hq Hopen Hclose Hno Hnc Hset c1.
  subst c1. rewrite (open_close_scheduled c s1 s2) by done.
  split; [done |]. intros fuel.
  set (cb := set_registered false (set_scheduled 0
               (set_scheduled 1 (set_registered true (set_state s2 c))))).
  set (c2 := add_effects
               (map SocketWrite q ++
                wrote (st_is_closed s3)
                  (frame_bytes 0 (described (local_open c)) None))
               (set_pending (Some []) (set_state s3 cb))).
  destruct (process_sessions_flushed (for_in_keys (local_channel_map c)) c2)
    as (ss & mid & Hps & Hlen & Hnil & Hall); [by eexists | done |].
  set (c' := add_effects
               (wrote (st_is_closed s4)
                  (frame_bytes 0 (described (local_close c)) None))
               (set_state s4 (add_effects mid (set_sessions ss c2)))).
  assert (process_once cb = Ok c') as Honce.
  { unfold process_once. change (state cb) with s2. rewrite Hno.
    unfold _write_open. rewrite write_frame_bytes.
    rewrite (output_attached_eq _ sock q) by done.
    change (bind (Ok ?x) ?k) with (k x). cbv beta.
    change (add_effects _ (set_pending (Some []) (set_state s3 cb))) with c2.
    change (local_channel_map c2) with (local_channel_map c).
    rewrite Hps. change (bind (Ok ?x) ?k) with (k x). cbv beta.
    change (state (add_effects mid (set_sessions ss c2))) with s3.
    rewrite Hnc. unfold _write_close. rewrite write_frame_bytes.
    by rewrite output_flushed by (done || by eexists). }
  exists c', mid.
  assert (iterations 1 cb c') as Hit by (by apply iterations_last).
  split.
  { unfold run_tick, _process. simpl scheduled. cbv iota.
    apply (process_loop_iterations 1); [done | lia]. }
  split; [done |]. split; [done |]. split; [done |]. split.
  { simpl. by rewrite <- !app_assoc. }
  split.
  - intros Hempty. rewrite Hempty, for_in_keys_empty in Hnil. by apply Hnil.
  - intros k sid Hk Hlt. apply (Hall k); [| done | done].
    apply for_in_keys_elem. by rewrite Hk.
Qed.

(** *** The socket and the pending queue *)

Lemma reachable_attached c : reachable c -> attached c.
Proof.
  apply reachable_invariant; unfold attached; try done.
  - by left.
  - intros sock q c0 _. right. by split; eexists.
  - intros q c0 [[_ Hq] | [Hs _]] [q' Hq']; [congruence |].
    right. by split; [| eexists].
  - intros c0 Hc0. unfold _register. by destruct (negb _).
Qed.

(** C7, at the connections without a socket. On every connection a program
    can be in, [output] without a socket throws a [TypeError] and leaves the
    connection as it was: the pending queue that the buffer should be
    appended to only exists once [init] has attached a socket. *)
Theorem output_without_socket_throws (buffer : Buffer) (c : Connection) :
  reachable c ->
  socket c = None ->
  pending c = None /\
  output buffer c =
    Thrown (TypeError "Cannot read property 'push' of undefined") c.
Proof.
  intros [[_ Hq] | [[sock Hs] _]]%reachable_attached Hnone; [| congruence].
  split; [done |]. unfold output. by rewrite Hnone, Hq.
Qed.

(** [open] and then [close] on a connection without a socket, when both
    are fresh transitions for the tracker and the open frame is then needed:
    the one pass they schedule throws when it writes the open frame, and
    nothing is written. *)
Lemma open_close_pass_detached (c : Connection) (s1 s2 s3 : EndpointState) :
  reachable c ->
  socket c = None ->
  st_open (state c) = (true, s1) ->
  st_close s1 = (true, s2) ->
  st_need_open s2 = (true, s3) ->
  scheduled (close (open c)) = 1 /\
  forall fuel, exists c',
    run_tick (S fuel) (close (open c)) =
      Thrown (TypeError "Cannot read property 'push' of undefined") c' /\
    effects c' = effects c /\
    pending c' = None.
Proof.
  intros Hr Hs Hopen Hclose Hno.
  pose proof (reachable_one_pass c Hr) as Hone.
  destruct (reachable_attached c Hr) as [[_ Hq] | [[sock Hsock] _]];
    [| congruence].
  rewrite (open_close_scheduled c s1 s2) by done.
  split; [done |]. intros fuel. eexists.
  unfold run_tick, _process. simpl scheduled. cbv iota.
  cbn [process_loop]. unfold process_once.
  change (state (set_registered false (set_scheduled 0
            (set_scheduled 1 (set_registered true (set_state s2 c))))))
    with s2.
  rewrite Hno. unfold _write_open. rewrite write_frame_bytes.
  unfold output. simpl socket. simpl pending. rewrite Hs, Hq.
  split; [reflexivity |]. done.
Qed.

(** C2. The body of the loop of [_process], wherever the writes can be made
    (a pending queue exists): the tracker is asked [need_open] and then
    [need_close]; the buffers handed to [output] are the open frame on
    channel 0 exactly when [need_open] answered true, then the frames of
    the sessions of the local channel map, each asked to process once in
    the order of the keys, then the close frame on channel 0 exactly when
    [need_close] answered true. The loop runs the body until the tracker
    reports the connection settled after an iteration, and a pass that
    returns has left it settled. The consequence for [open] followed by
    [close] (fresh transitions, both frames needed, settled afterwards)
    holds on a connection with a socket: one pass is scheduled, and it
    writes what was pending, the open frame, what the sessions flush and
    the close frame. On a connection without a socket it does not: the one
    pass throws on the open frame and writes nothing. *)
Theorem open_close_one_pass :
  (forall c : Connection,
     is_Some (pending c) ->
     let no := st_need_open (state c) in
     let nc := st_need_close no.2 in
     let fl := sessions_flush (for_in_keys (local_channel_map c))
                 (local_channel_map c) (sessions c) in
     exists c',
       process_once c = Ok c' /\
       rest c' = rest (set_sessions fl.1 (set_state nc.2 c)) /\
       is_Some (pending c') /\
       outbound c' =
         outbound c ++
         (if no.1 then [frame_bytes 0 (described (local_open c)) None]
          else []) ++
         map out_bytes fl.2.2 ++
         (if nc.1 then [frame_bytes 0 (described (local_close c)) None]
          else []) /\
       processed c' = processed c ++ fl.2.1 /\
       (is_Some (socket c) -> pending c = Some [] -> pending c' = Some [])) /\
  (forall (n fuel : nat) (c c' : Connection),
     iterations n (set_registered false c) c' ->
     n <= fuel ->
     _process fuel c = Ok c') /\
  (forall (fuel : nat) (c : Connection),
     leaves (fun c' => st_has_settled (state c') = true) (fun _ => True)
       (_process fuel c)) /\
  (forall (c : Connection) (sock : nat) (q : list Buffer)
          (s1 s2 s3 s4 : EndpointState),
     one_pass c ->
     socket c = Some sock ->
     pending c = Some q ->
     st_open (state c) = (true, s1) ->
     st_close s1 = (true, s2) ->
     st_need_open s2 = (true, s3) ->
     st_need_close s3 = (true, s4) ->
     st_has_settled s4 = true ->
     let c1 := close (open c) in
     scheduled c1 = 1 /\
     forall fuel, exists c' mid,
       run_tick (S fuel) c1 = Ok c' /\
       iterations 1 (set_registered false (set_scheduled 0 c1)) c' /\
       scheduled c' = 0 /\
       registered c' = false /\
       effects c' =
         effects c ++ map SocketWrite q ++
         wrote (st_is_closed s3) (frame_bytes 0 (described (local_open c)) None) ++
         mid ++
         wrote (st_is_closed s4) (frame_bytes 0 (described (local_close c)) None) /\
       (local_channel_map c = ∅ -> mid = []) /\
       (forall k sid,
          local_channel_map c !! k = Some sid ->
          sid < length (sessions c) ->
          SessionProcess sid ∈ mid)) /\
  (forall (c : Connection) (s1 s2 s3 : EndpointState),
     reachable c ->
     socket c = None ->
     st_open (state c) = (true, s1) ->
     st_close s1 = (true, s2) ->
     st_need_open s2 = (true, s3) ->
     scheduled (close (open c)) = 1 /\
     forall fuel, exists c',
       run_tick (S fuel) (close (open c)) =
         Thrown (TypeError "Cannot read property 'push' of undefined") c' /\
       effects c' = effects c /\
       pending c' = None).
Proof.
  split; [exact process_once_outbound |].
  split.
  { intros n fuel c c' Hit Hn. unfold _process.
    by apply (process_loop_iterations n). }
  split; [intros fuel c; apply process_loop_settled |].
  split; [exact open_close_pass_attached | exact open_close_pass_detached].
Qed.

(** ** The frame reassembler *)

(** Once a chunk has left bytes over, every later chunk throws and the
    bytes stay where they are. *)
Lemma input_leftover_throws fuel buff c :
  is_Some (previous_input c) ->
  input fuel buff c =
    Thrown (TypeError "Cannot read property 'size' of undefined") c.
Proof. intros [p Hp]. unfold input. by rewrite Hp. Qed.

(** A first chunk shorter than the header is left over whole. *)
Lemma input_short_header fuel buff c :
  previous_input c = None ->
  header_received c = None ->
  length buff < 8 ->
  input fuel buff c = Ok (set_previous_input (Some buff) c).
Proof.
  intros Hp Hh Hlen. unfold input. rewrite Hp, Hh.
  by rewrite (proj2 (Nat.ltb_lt _ _) Hlen).
Qed.

(** A header that arrives in two chunks is never parsed. *)
Lemma input_header_in_two_chunks fuel b1 b2 chunks c :
  previous_input c = None ->
  header_received c = None ->
  length b1 < 8 ->
  input_all fuel (b1 :: b2 :: chunks) c =
    Thrown (TypeError "Cannot read property 'size' of undefined")
      (set_previous_input (Some b1) c).
Proof.
  intros Hp Hh Hlen. cbn [input_all].
  rewrite input_short_header by done. cbn [bind].
  rewrite input_leftover_throws by (by eexists). done.
Qed.

(** C4. The handler that [delegate_to_session] installs for end, attach,
    detach, transfer, disposition and flow throws exactly when the remote
    channel map has no session for the channel of the frame, which is when
    no begin on that channel reached a session before (on any connection
    that a program can be in); the connection is then unchanged. Otherwise
    it returns, having called the method of that name on the session the
    map gives for the channel, with the frame, and nothing else: every other
    session of the store and both channel maps are as before. *)
Theorem delegated_routing (d : Delegated) (frame : Frame) (c : Connection) :
  ((exists e c', delegate_to_session d frame c = Thrown e c') <->
     remote_channel_map c !! channel frame = None) /\
  (reachable c ->
     (remote_channel_map c !! channel frame = None <->
        ~ begun (channel frame) c)) /\
  match remote_channel_map c !! channel frame with
  | None =>
      delegate_to_session d frame c =
        Thrown (Error (delegated_name d +:+ " received on invalid channel "
                         +:+ pretty (channel frame))) c
  | Some sid =>
      exists c',
        delegate_to_session d frame c = Ok c' /\
        effects c' = effects c ++ [SessionCall sid (m_on d) frame] /\
        sessions c' !! sid = (fun s => ssn_on (m_on d) s frame) <$> sessions c !! sid /\
        (forall other, other <> sid -> sessions c' !! other = sessions c !! other) /\
        local_channel_map c' = local_channel_map c /\
        remote_channel_map c' = remote_channel_map c
  end.
Proof.
  split; [| split; [apply reachable_bound_iff_begun |]].
  all: unfold delegate_to_session.
  all: destruct (remote_channel_map c !! channel frame) as [sid |].
  - split; [intros (e & c' & [=]) | done].
  - split; [done | eauto].
  - eexists. split; [reflexivity |]. simpl. split_and!; try done.
    + apply list_lookup_alter_eq.
    + intros other Hne. by apply list_lookup_alter_ne.
  - done.
Qed.

End Properties.

(** ** Runs of the model *)

(** Three sessions, the one of channel 1 removed: the next one gets
    channel 1. *)
Lemma create_session_lowest_free_channel_witness :
  local_channel_map fresh = ∅ /\ 1 < 3 /\
  exists cN c' sid,
    create_sessions 3 fresh = Some cN /\
    create_session (remove_session 1 cN) = Some (c', sid) /\
    local_channel_map c' !! 1 = Some sid /\
    ssn_channel <$> sessions c' !! sid = Some 1.
Proof.
  split; [reflexivity |]. split; [lia |].
  apply (proj2 create_session_lowest_free_channel fresh 3 1); [reflexivity | lia].
Defined.

(** C1, on a stream cut inside the header. The protocol header followed by a
    begin frame on channel 3: handed to [input] as one chunk, the header is
    parsed and the frame reaches a new session; handed over as a chunk of one
    byte, another of one byte and the rest, the second chunk throws a
    [TypeError], the header is never parsed and no frame is dispatched. *)
Theorem input_split_header_throws :
  let header := {| protocol_id := 0; major := 1; minor := 0; revision := 0 |} in
  let stream := wire_header header ++ wire_frame 3 (performative (begin_frame 3)) in
  (exists c',
     input_all 5 [stream] fresh = Ok c' /\
     header_received c' = Some header /\
     previous_input c' = None /\
     effects c' = [SessionCall 0 m_on_begin (begin_frame 3)]) /\
  input_all 5 [take 1 stream; take 1 (drop 1 stream); drop 2 stream] fresh =
    Thrown (TypeError "Cannot read property 'size' of undefined")
      (set_previous_input (Some (take 1 stream)) fresh).
Proof.
  split; [| vm_compute; reflexivity].
  eexists. split; [vm_compute; reflexivity |]. done.
Qed.

(** [open] on a new connection that was given no socket: the pass it
    schedules throws when it writes the open frame. *)
Lemma pass_before_socket_throws :
  scheduled (open fresh) = 1 /\
  exists c',
    run_tick 1 (open fresh) =
      Thrown (TypeError "Cannot read property 'push' of undefined") c' /\
    pending c' = None /\
    effects c' = [].
Proof.
  split; [reflexivity |]. eexists. split; [vm_compute; reflexivity |]. done.
Qed.

(** A connection without a socket: [output] throws. *)
Lemma output_without_socket_throws_witness :
  reachable fresh /\ socket fresh = None /\
  pending fresh = None /\
  output [x01] fresh =
    Thrown (TypeError "Cannot read property 'push' of undefined") fresh.
Proof.
  assert (reachable fresh) as Hr by apply reachable_new.
  split; [exact Hr |]. split; [reflexivity |].
  apply (output_without_socket_throws [x01] fresh Hr). reflexivity.
Defined.

(** No listener and no container: the event is dropped. *)
Lemma dispatch_silent_drop_witness :
  listeners_of "connection_open" fresh = [] /\
  container fresh = None /\
  dispatch "connection_open"
    {| ctx_connection := "connection-1"; ctx_container := None |} fresh = fresh.
Proof.
  split; [reflexivity |]. split; [reflexivity |].
  apply (dispatch_silent_drop "connection_open" _ fresh); reflexivity.
Defined.

(** C9 as stated fails: two begin frames on channel 0, neither with a remote
    channel. The first binds channel 0 to the session it creates, the
    second replaces that entry with another session. *)
Lemma second_begin_rebinds_channel :
  exists c1 c2,
    reachable c1 /\
    on_begin (begin_frame 0) fresh = Ok c1 /\
    remote_channel_map c1 !! 0 = Some 0 /\
    on_begin (begin_frame 0) c1 = Ok c2 /\
    remote_channel_map c2 !! 0 = Some 1 /\
    remote_channel_map c2 !! 0 <> remote_channel_map c1 !! 0.
Proof.
  exists after_begin. eexists.
  split.
  { apply (reachable_returns (call_handle (begin_frame 0)) fresh);
      [apply reachable_new | vm_compute; reflexivity]. }
  split; [vm_compute; reflexivity |].
  split; [vm_compute; reflexivity |]. split; [vm_compute; reflexivity |].
  split; [vm_compute; reflexivity |]. vm_compute. discriminate.
Qed.

(** The entry of channel 0 after one begin frame is the session that
    received it. *)
Lemma remote_binding_follows_begin_witness :
  reachable after_begin /\
  on_begin (begin_frame 0) fresh = Ok after_begin /\
  remote_channel_map after_begin !! 0 = last_begin 0 (effects after_begin) /\
  exists sid,
    effects after_begin =
      effects fresh ++ [SessionCall sid m_on_begin (begin_frame 0)] /\
    remote_channel_map after_begin =
      <[channel (begin_frame 0) := sid]> (remote_channel_map fresh).
Proof.
  assert (on_begin (begin_frame 0) fresh = Ok after_begin) as Hb
    by (vm_compute; reflexivity).
  assert (reachable after_begin) as Hr.
  { apply (reachable_returns (call_handle (begin_frame 0)) fresh);
      [apply reachable_new | exact Hb]. }
  split; [exact Hr |]. split; [exact Hb |].
  split; [apply (proj1 remote_binding_follows_begin _ Hr) |].
  apply (proj2 remote_binding_follows_begin _ _ _ Hb).
Defined.

(** An end frame on a channel that no begin frame opened. *)
Lemma delegated_routing_witness :
  let frame :=
    {| channel := 3;
       performative := {| perf_name := p_end; container_id := None;
                          remote_channel := None |};
       payload := None |} in
  reachable fresh /\
  (remote_channel_map fresh !! 3 = None <-> ~ begun 3 fresh) /\
  delegate_to_session d_end frame fresh =
    Thrown (Error "end received on invalid channel 3") fresh.
Proof.
  intros frame.
  assert (reachable fresh) as Hr by apply reachable_new.
  split; [exact Hr |].
  destruct (delegated_routing d_end frame fresh) as (_ & Hbegun & Hthrow).
  split; [exact (Hbegun Hr) | exact Hthrow].
Defined.

(** A connection that has just been given a socket, when a pass is
    scheduled. *)
Lemma one_pass_outstanding_witness :
  reachable (accept 7 fresh) /\
  scheduled (accept 7 fresh) <= 1 /\
  (registered (accept 7 fresh) = true <-> scheduled (accept 7 fresh) = 1).
Proof.
  assert (reachable (accept 7 fresh)) as Hr.
  { apply (reachable_returns (call_accept 7) fresh);
      [apply reachable_new | reflexivity]. }
  split; [exact Hr |].
  destruct (one_pass_outstanding (accept 7 fresh) Hr) as (Hle & Hiff & _).
  split; [exact Hle | exact Hiff].
Defined.

(** [accept] and then [close] on a new connection: one pass, which writes
    the protocol header, the open frame and the close frame. (This tracker
    reports the connection closed from the [close] call on, so the socket is
    ended after each of the two frames.) The body of the loop after [accept]
    alone hands over the open frame and no close frame. [open] and then
    [close] on a new connection that was given no socket: one pass, which
    throws and writes nothing. *)
Lemma open_close_one_pass_witness :
  (one_pass attached_fresh /\
   open attached_fresh = accept 7 fresh /\
   scheduled (close (open attached_fresh)) = 1 /\
   exists c',
     run_tick 1 (close (open attached_fresh)) = Ok c' /\
     _process 1 (set_scheduled 0 (close (open attached_fresh))) = Ok c' /\
     scheduled c' = 0 /\
     effects c' =
       [SocketWrite
          (wire_header {| protocol_id := 0; major := 1; minor := 0; revision := 0 |});
        SocketWrite (wire_frame 0 (local_open fresh));
        SocketEnd;
        SocketWrite (wire_frame 0 (local_close fresh));
        SocketEnd]) /\
  (is_Some (pending (accept 7 fresh)) /\
   exists c',
     process_once (accept 7 fresh) = Ok c' /\
     outbound c' =
       [wire_header {| protocol_id := 0; major := 1; minor := 0; revision := 0 |};
        wire_frame 0 (local_open fresh)] /\
     processed c' = []) /\
  (reachable fresh /\ socket fresh = None /\
   scheduled (close (open fresh)) = 1 /\
   exists c',
     run_tick 1 (close (open fresh)) =
       Thrown (TypeError "Cannot read property 'push' of undefined") c' /\
     effects c' = []).
Proof.
  destruct open_close_one_pass as (Hbody & Hloop & _ & Hpos & Hneg).
  split; [| split].
  - split; [reflexivity |]. split; [vm_compute; reflexivity |].
    pose (s1 := (endpoint_open (state attached_fresh)).2).
    pose (s2 := (endpoint_close s1).2).
    pose (s3 := (endpoint_need_open s2).2).
    pose (s4 := (endpoint_need_close s3).2).
    destruct (Hpos attached_fresh 7
                [wire_header {| protocol_id := 0; major := 1; minor := 0;
                                revision := 0 |}] s1 s2 s3 s4)
      as [Hs Hrun]; try (vm_compute; reflexivity).
    split; [exact Hs |].
    destruct (Hrun 0) as (c' & mid & Hr & Hit & Hsch & _ & Heff & Hmid & _).
    exists c'. split; [exact Hr |].
    split; [exact (Hloop 1 1 _ c' Hit (le_n 1)) |].
    split; [exact Hsch |].
    rewrite Heff, (Hmid eq_refl). vm_compute. reflexivity.
  - assert (is_Some (pending (accept 7 fresh))) as Hq by (by eexists).
    split; [exact Hq |].
    destruct (Hbody (accept 7 fresh) Hq) as (c' & Hp & _ & _ & Ho & Hpr & _).
    exists c'. split; [exact Hp |]. split.
    + rewrite Ho. vm_compute. reflexivity.
    + rewrite Hpr. vm_compute. reflexivity.
  - assert (reachable fresh) as Hr by apply reachable_new.
    split; [exact Hr |]. split; [reflexivity |].
    pose (s1 := (endpoint_open (state fresh)).2).
    pose (s2 := (endpoint_close s1).2).
    pose (s3 := (endpoint_need_open s2).2).
    destruct (Hneg fresh s1 s2 s3 Hr) as [Hs Hrun];
      try (vm_compute; reflexivity).
    split; [exact Hs |].
    destruct (Hrun 0) as (c' & Hthrow & Heff & _).
    exists c'. split; [exact Hthrow | exact Heff].
Defined.

(** The open frame of a peer on a connection with two listeners: both are
    called, in order, the local open is requested and a pass scheduled. *)
Lemma remote_open_close_once_witness :
  exists c',
    on_open open_frame listening = Ok c' /\
    remote_open c' = Some (performative open_frame) /\
    effects c' =
      [Emit 5 "connection_open"
         {| ctx_connection := "connection-1"; ctx_container := None |};
       Emit 6 "connection_open"
         {| ctx_connection := "connection-1"; ctx_container := None |}] /\
    registered c' = true /\
    scheduled c' = 1.
Proof.
  pose proof (proj2 (proj1 (remote_open_close_once open_frame listening)))
    as Hopen.
  change ((st_remote_opened (state listening)).1) with true in Hopen.
  cbv zeta in Hopen.
  destruct Hopen as (c' & Hok & Hro & _ & Heff & _ & Hreg & Hsch).
  exists c'. split; [exact Hok |]. split; [exact Hro |].
  split; [rewrite Heff; vm_compute; reflexivity |].
  split; [rewrite Hreg; vm_compute; reflexivity |].
  rewrite Hsch. vm_compute. reflexivity.
Defined.

(** * Further properties of the code *)

Section Further.
Context `{Codec} `{StateTracker} `{SessionLogic}.
Context `{!SessionLinks}.

(** ** The frame reassembler on one buffer *)

Lemma sized_four f :
  sized f -> exists b0 b1 b2 b3 rest, f = b0 :: b1 :: b2 :: b3 :: rest.
Proof.
  unfold sized, readUInt32BE. rewrite drop_0.
  destruct f as [| b0 [| b1 [| b2 [| b3 rest]]]]; try done. eauto 6.
Qed.

Lemma readUInt32BE_at pre x :
  readUInt32BE (pre ++ x) (length pre) = readUInt32BE x 0.
Proof. unfold readUInt32BE. by rewrite drop_app_length, drop_0. Qed.

Lemma readUInt32BE_sized f x :
  sized f -> readUInt32BE (f ++ x) 0 = Some (length f).
Proof.
  intros Hf. destruct (sized_four f Hf) as (b0 & b1 & b2 & b3 & rest & ->).
  exact Hf.
Qed.

Lemma bind_assoc {A B C : Type} (r : result A) (k : A -> result B)
    (k' : B -> result C) :
  bind (bind r k) k' = bind r (fun a => bind (k a) k').
Proof. by destruct r. Qed.

(** The loop of [input] at the start of whole frames followed by bytes that
    hold no whole frame: the frames go to their handlers in order, then the
    rest is dealt with. *)
Lemma input_frames_stream fs :
  forall frs pre tail fuel c,
    Forall sized fs ->
    Forall2 (fun f fr => read_frame f = Normal fr) fs frs ->
    unfinished tail ->
    length fs < fuel ->
    input_frames fuel (pre ++ concat fs ++ tail) (length pre) c =
      bind (dispatch_all frs c) (tail_outcome tail).
Proof.
  induction fs as [| f fs IH]; intros frs pre tail fuel c Hs Hr Ht Hfuel.
  - apply Forall2_nil_inv_l in Hr as ->.
    destruct fuel as [| fuel]; [simpl in Hfuel; lia |].
    cbn [concat app input_frames dispatch_all bind].
    destruct tail as [| t tail].
    { rewrite app_nil_r, Nat.ltb_irrefl. done. }
    rewrite (proj2 (Nat.ltb_lt _ _)) by (rewrite length_app; simpl; lia).
    rewrite readUInt32BE_at. cbn [tail_outcome].
    destruct (readUInt32BE (t :: tail) 0) as [n |] eqn:Hn; [| done].
    apply Ht in Hn.
    rewrite (proj2 (Nat.ltb_lt _ _)) by (rewrite length_app; lia).
    by rewrite drop_app_length.
  - apply Forall2_cons_inv_l in Hr as (fr & frs' & Hfr & Hr & ->).
    apply Forall_cons in Hs as [Hf Hs].
    destruct fuel as [| fuel]; [simpl in Hfuel; lia |].
    destruct (sized_four f Hf) as (b0 & b1 & b2 & b3 & rest & Heq).
    assert (4 <= length f) as Hlen by (rewrite Heq; simpl; lia).
    cbn [concat input_frames dispatch_all].
    rewrite (proj2 (Nat.ltb_lt _ _)) by (rewrite !length_app; lia).
    rewrite readUInt32BE_at, <- app_assoc, (readUInt32BE_sized f) by done.
    rewrite (proj2 (Nat.ltb_ge _ _)) by (rewrite !length_app; lia).
    unfold slice.
    replace (length pre + length f - length pre) with (length f) by lia.
    rewrite drop_app_length, take_app_length, Hfr, bind_assoc.
    destruct (performative_dispatch fr c) as [c' | |]; [| done | done].
    cbn [bind].
    replace (pre ++ f ++ concat fs ++ tail)
      with ((pre ++ f) ++ concat fs ++ tail) by (by rewrite <- app_assoc).
    rewrite <- length_app. apply IH; [done.. |]. simpl in Hfuel. lia.
Qed.

Lemma bind_ext {A B : Type} (r : result A) (k k' : A -> result B) :
  (forall a, k a = k' a) -> bind r k = bind r k'.
Proof. intros Hk. destruct r; simpl; auto. Qed.

Lemma tail_outcome_leftover tail c :
  tail = [] \/ 4 <= length tail ->
  tail_outcome tail c =
    Ok (match tail with
        | [] => c
        | _ :: _ => set_previous_input (Some tail) c
        end).
Proof.
  intros [-> | Hlen]; [done |]. unfold tail_outcome, readUInt32BE.
  rewrite drop_0.
  destruct tail as [| b0 [| b1 [| b2 [| b3 rest]]]]; simpl in Hlen; try lia.
  done.
Qed.

Lemma tail_outcome_short tail c :
  0 < length tail < 4 ->
  tail_outcome tail c =
    Thrown (RangeError "Trying to access beyond buffer length") c.
Proof.
  intros Hlen. unfold tail_outcome, readUInt32BE. rewrite drop_0.
  destruct tail as [| b0 [| b1 [| b2 [| b3 rest]]]]; simpl in Hlen;
    (lia || done).
Qed.

Lemma unfinished_short tail : length tail < 4 -> unfinished tail.
Proof.
  intros Hlen n. unfold readUInt32BE. rewrite drop_0.
  destruct tail as [| b0 [| b1 [| b2 [| b3 rest]]]]; simpl in Hlen;
    (lia || done).
Qed.

(** X1. A buffer handed to [input] with nothing left over from before, made
    of whole frames and then of bytes that are no whole frame but are none
    or at least the four of a length: the frames go to their handlers in
    the order of the buffer, a handler that throws ends it, and afterwards
    exactly the bytes after the last whole frame are left over. On the first
    buffer the eight bytes in front are the header, which is read from the
    whole buffer and recorded before any frame is handled. *)
Theorem input_one_buffer
    (fuel : nat) (fs : list Buffer) (frs : list Frame) (tail : Buffer)
    (c : Connection) :
  previous_input c = None ->
  Forall sized fs ->
  Forall2 (fun f fr => read_frame f = Normal fr) fs frs ->
  unfinished tail ->
  tail = [] \/ 4 <= length tail ->
  length fs < fuel ->
  let leftover c' :=
    Ok (match tail with
        | [] => c'
        | _ :: _ => set_previous_input (Some tail) c'
        end) in
  (forall hb h,
     header_received c = None ->
     length hb = 8 ->
     read_header (hb ++ concat fs ++ tail) = Normal h ->
     input fuel (hb ++ concat fs ++ tail) c =
       bind (dispatch_all frs (set_header_received (Some h) c)) leftover) /\
  (is_Some (header_received c) ->
   input fuel (concat fs ++ tail) c = bind (dispatch_all frs c) leftover).
Proof.
  intros Hp Hs Hr Ht Hlen Hfuel leftover.
  assert (forall c0, bind (dispatch_all frs c0) (tail_outcome tail) =
                     bind (dispatch_all frs c0) leftover) as Hend.
  { intros c0. apply bind_ext. intros c'. by apply tail_outcome_leftover. }
  split.
  - intros hb h Hh Hhb Hread. unfold input. rewrite Hp, Hh.
    rewrite (proj2 (Nat.ltb_ge _ _)) by (rewrite length_app; lia).
    by rewrite Hread, <- Hhb, (input_frames_stream fs frs), Hend.
  - intros [h Hh]. unfold input. rewrite Hp, Hh.
    by rewrite (input_frames_stream fs frs [] tail), Hend.
Qed.


(** ** What no call undoes *)

Lemma register_fields c :
  header_received (_register c) = header_received c /\
  local_channel_map (_register c) = local_channel_map c /\
  remote_channel_map (_register c) = remote_channel_map c /\
  effects (_register c) = effects c /\
  pending (_register c) = pending c /\
  socket (_register c) = socket c /\
  options_id (_register c) = options_id c /\
  local_open (_register c) = local_open c /\
  local_close (_register c) = local_close c.
Proof. unfold _register. by destruct (negb _). Qed.

(** X3. The protocol header is recorded once: whatever is called on a
    connection that has recorded a header, and whether the call returns or
    throws, [header_received] is still that header. *)
Theorem header_received_once (call : Call) (h : Header) (c : Connection) :
  header_received c = Some h ->
  leaves (fun c' => header_received c' = Some h)
         (fun c' => header_received c' = Some h) (exec call c).
Proof.
  revert c. apply (keeps_exec (fun c => header_received c = Some h)); try done.
  - intros h' c Hc Hnone. congruence.
  - intros c Hc. by rewrite (proj1 (register_fields c)).
Qed.

(** X4. No call removes or replaces an entry of the local channel map: a
    channel that has a session keeps that session, whether the call returns
    or throws. *)
Theorem local_channel_kept (call : Call) (k sid : nat) (c : Connection) :
  local_channel_map c !! k = Some sid ->
  leaves (fun c' => local_channel_map c' !! k = Some sid)
         (fun c' => local_channel_map c' !! k = Some sid) (exec call c).
Proof.
  revert c.
  apply (keeps_exec (fun c => local_channel_map c !! k = Some sid)); try done.
  - intros i c Hc [Hi _]. simpl. rewrite lookup_insert_ne; [done |].
    intros ->. congruence.
  - intros c Hc. by rewrite (proj1 (proj2 (register_fields c))).
Qed.

(** X5. On every connection a program can be in, a session that the remote
    channel map holds is a session of the local channel map. *)
Theorem remote_sessions_are_local (c : Connection) (ch sid : nat) :
  reachable c ->
  remote_channel_map c !! ch = Some sid ->
  exists k, local_channel_map c !! k = Some sid.
Proof.
  intros Hc. revert ch sid.
  apply (reachable_invariant
           (fun c => forall ch sid,
              remote_channel_map c !! ch = Some sid ->
              exists k, local_channel_map c !! k = Some sid)); try done.
  - intros i c0 Hc0 [Hi _] ch sid Hch. simpl in *.
    destruct (Hc0 ch sid Hch) as [k Hk]. exists k.
    rewrite lookup_insert_ne; [done |]. intros ->. congruence.
  - intros c0 Hc0 ch sid.
    destruct (register_fields c0) as (_ & -> & -> & _). apply Hc0.
  - intros sid frame c0 Hc0 Hk ch sid'. simpl.
    destruct (decide (channel frame = ch)) as [-> | Hne].
    + rewrite lookup_insert_eq. by intros [= <-].
    + rewrite lookup_insert_ne by done. apply Hc0.
Qed.

(** ** The pass and the event loop *)

(** X6. The turn of the event loop that runs a scheduled pass takes it off
    the scheduled ones and leaves [registered] cleared, also when the pass
    throws: a pass that failed does not keep a later [open] or [close] from
    scheduling the next one. *)
Theorem run_tick_consumes (fuel n : nat) (c : Connection) :
  scheduled c = S n ->
  leaves (fun c' => registered c' = false /\ scheduled c' = n)
         (fun c' => registered c' = false /\ scheduled c' = n)
         (run_tick fuel c) /\
  leaves (fun c' => scheduled (_register c') = S n)
         (fun c' => scheduled (_register c') = S n)
         (run_tick fuel c).
Proof.
  intros Hn.
  assert (leaves (fun c' => registered c' = false /\ scheduled c' = n)
            (fun c' => registered c' = false /\ scheduled c' = n)
            (run_tick fuel c)) as Hrun.
  { unfold run_tick, _process. rewrite Hn.
    by apply (keeps_process_loop
                (fun c => registered c = false /\ scheduled c = n)). }
  split; [exact Hrun |].
  destruct (run_tick fuel c) as [c' | e c' |]; simpl in *; [| | done].
  - destruct Hrun as [Hr Hs]. unfold _register. rewrite Hr. simpl. by rewrite Hs.
  - destruct Hrun as [Hr Hs]. unfold _register. rewrite Hr. simpl. by rewrite Hs.
Qed.

Lemma output_never_throws b c :
  is_Some (socket c) -> is_Some (pending c) ->
  leaves (fun c' => is_Some (socket c') /\ is_Some (pending c'))
         (fun _ => False) (output b c).
Proof.
  intros [sock Hs] [q Hq]. rewrite (output_attached_eq b sock q) by done.
  simpl. rewrite Hs. by split; eexists.
Qed.

Lemma write_frames_never_throws outs c :
  is_Some (socket c) -> is_Some (pending c) ->
  leaves (fun c' => is_Some (socket c') /\ is_Some (pending c'))
         (fun _ => False) (write_frames outs c).
Proof.
  revert c. induction outs as [| o outs IH]; intros c Hs Hq; simpl; [done |].
  eapply (leaves_bind
            (fun c' => is_Some (socket c') /\ is_Some (pending c'))).
  - rewrite write_frame_bytes. by apply output_never_throws.
  - intros c' [Hs' Hq']. by apply IH.
Qed.

Lemma process_sessions_never_throws ks c :
  is_Some (socket c) -> is_Some (pending c) ->
  leaves (fun c' => is_Some (socket c') /\ is_Some (pending c'))
         (fun _ => False) (process_sessions ks c).
Proof.
  revert c. induction ks as [| k ks IH]; intros c Hs Hq; simpl; [done |].
  eapply (leaves_bind
            (fun c' => is_Some (socket c') /\ is_Some (pending c'))).
  - unfold session_process.
    destruct (local_channel_map c !! k) as [sid |]; [| by simpl].
    destruct (sessions c !! sid) as [s |]; [| by simpl].
    destruct (ssn_process s) as [s' outs].
    by apply write_frames_never_throws.
  - intros c' [Hs' Hq']. by apply IH.
Qed.

Lemma process_loop_never_throws fuel c :
  is_Some (socket c) -> is_Some (pending c) ->
  leaves (fun c' => is_Some (socket c') /\ is_Some (pending c'))
         (fun _ => False) (process_loop fuel c).
Proof.
  revert c. induction fuel as [| fuel IH]; intros c Hs Hq; simpl; [done |].
  eapply (leaves_bind
            (fun c' => is_Some (socket c') /\ is_Some (pending c'))).
  - unfold process_once, _write_open, _write_close.
    destruct (st_need_open (state c)) as [need st].
    eapply (leaves_bind
            (fun c' => is_Some (socket c') /\ is_Some (pending c'))).
    { destruct need; [| by simpl].
      rewrite write_frame_bytes. by apply output_never_throws. }
    intros c1 [Hs1 Hq1]. eapply (leaves_bind
            (fun c' => is_Some (socket c') /\ is_Some (pending c'))).
    { by apply process_sessions_never_throws. }
    intros c2 [Hs2 Hq2]. destruct (st_need_close (state c2)) as [need' st'].
    destruct need'; [| by simpl].
    rewrite write_frame_bytes. by apply output_never_throws.
  - intros c' [Hs' Hq']. destruct (negb _); [by apply IH | done].
Qed.

(** X7. On every connection a program can be in that has a socket, the pass
    does not throw: each write finds the pending queue that [init] created
    with the socket. *)
Theorem pass_with_socket_never_throws (fuel : nat) (c : Connection) :
  reachable c ->
  is_Some (socket c) ->
  leaves (fun c' => is_Some (socket c') /\ is_Some (pending c'))
         (fun _ => False) (run_tick fuel c).
Proof.
  intros [[Hnone _] | [Hs Hq]]%reachable_attached Hsock.
  { rewrite Hnone in Hsock. by destruct Hsock. }
  unfold run_tick, _process. destruct (scheduled c); [done |].
  by apply process_loop_never_throws.
Qed.

(** ** Output *)

(** X8. On every connection a program can be in that has a socket, [output]
    returns: it writes the pending buffers in the order they were queued and
    then its own buffer, ends the socket if and only if the connection is
    closed, and leaves the queue empty, so that the next [output] writes
    its buffer only. *)
Theorem output_flushes_in_order (b : Buffer) (sock : nat) (c : Connection) :
  reachable c ->
  socket c = Some sock ->
  exists q c',
    pending c = Some q /\
    output b c = Ok c' /\
    pending c' = Some [] /\
    effects c' =
      effects c ++ map SocketWrite q ++ [SocketWrite b] ++
      (if is_closed c then [SocketEnd] else []) /\
    forall b2, output b2 c' = Ok (add_effects (wrote (is_closed c') b2) c').
Proof.
  intros [[Hnone _] | [_ [q Hq]]]%reachable_attached Hs; [congruence |].
  destruct (output_attached b sock q c Hs Hq) as (c' & Hout & Hq' & He).
  exists q, c'. split; [done |]. split; [done |]. split; [done |].
  split; [done |]. intros b2. apply output_flushed; [| done].
  rewrite (output_attached_eq b sock q) in Hout by done.
  injection Hout as <-. simpl. by rewrite Hs.
Qed.

Lemma open_io c :
  socket (open c) = socket c /\ pending (open c) = pending c /\
  effects (open c) = effects c.
Proof.
  unfold open. destruct (st_open (state c)) as [[] st]; [| done].
  by destruct (register_fields (set_state st c)) as (_ & _ & _ & -> & -> & -> & _).
Qed.

(** X9. [init] starts the pending queue over with the protocol header alone,
    whatever was pending before, and the first [output] after it writes the
    header and then its buffer. *)
Theorem init_header_first (sock : nat) (b : Buffer) (c : Connection) :
  let header :=
    write_header (new_Buffer 8)
      {| protocol_id := 0; major := 1; minor := 0; revision := 0 |} in
  socket (init sock c) = Some sock /\
  pending (init sock c) = Some [header] /\
  exists c',
    output b (init sock c) = Ok c' /\
    effects c' =
      effects c ++ [SocketWrite header; SocketWrite b] ++
      (if is_closed (init sock c) then [SocketEnd] else []).
Proof.
  intros header.
  assert (socket (init sock c) = Some sock /\
          pending (init sock c) = Some [header] /\
          effects (init sock c) = effects c) as (Hs & Hq & He).
  { unfold init. cbv zeta. split_and!.
    - by rewrite (proj1 (open_io _)).
    - by rewrite (proj1 (proj2 (open_io _))).
    - by rewrite (proj2 (proj2 (open_io _))). }
  split; [done |]. split; [done |].
  destruct (output_attached b sock [header] (init sock c) Hs Hq)
    as (c' & Hout & _ & He').
  exists c'. split; [done |]. by rewrite He', He.
Qed.

(** X10. With a codec that writes into the buffer it is given,
    [_write_frame] hands at most the 1024 bytes of its buffer to [output],
    whatever the frame and the payload. *)
Theorem write_frame_at_most_1024
    (ch : nat) (frame : Described) (pl : option Buffer) (c : Connection) :
  writes_in_place ->
  exists b,
    length b <= 1024 /\
    _write_frame ch frame pl c = output b c.
Proof.
  intros Hin. exists (frame_bytes ch frame pl).
  split; [| apply write_frame_bytes].
  unfold frame_bytes. specialize (Hin (new_Buffer 1024) ch frame pl).
  unfold new_Buffer in *. rewrite length_replicate in Hin.
  destruct (write_amqp_frame (replicate 1024 x00) ch frame pl)
    as [buffer len].
  cbn [fst] in Hin. rewrite length_take. lia.
Qed.

(** ** Input and the socket *)

Lemma filter_none {A : Type} (f : A -> bool) (l : list A) :
  Forall (fun x => f x = false) l -> List.filter f l = [].
Proof.
  induction 1 as [| x l Hx _ IH]; simpl; [done |]. by rewrite Hx.
Qed.

Lemma socket_effects_add es c :
  Forall (fun e => is_socket_effect e = false) es ->
  socket_effects (add_effects es c) = socket_effects c.
Proof.
  intros Hes. unfold socket_effects. simpl.
  by rewrite List.filter_app, (filter_none _ es), app_nil_r.
Qed.

(** X11. [input] writes nothing: whatever the buffer, and whether [input]
    returns or throws, the calls made on the socket, the pending queue and
    the socket are as they were before. What the frames ask for is left to
    the pass. *)
Theorem input_defers_output (fuel : nat) (buff : Buffer) (c : Connection) :
  leaves (fun c' => socket_effects c' = socket_effects c /\
                    pending c' = pending c /\ socket c' = socket c)
         (fun c' => socket_effects c' = socket_effects c /\
                    pending c' = pending c /\ socket c' = socket c)
         (input fuel buff c).
Proof.
  apply (keeps_input
           (fun c' => socket_effects c' = socket_effects c /\
                      pending c' = pending c /\ socket c' = socket c));
    try done.
  - intros es c0 (He & Hq & Hs) _ Hes. by rewrite socket_effects_add.
  - intros c0 Hc0. unfold socket_effects.
    by destruct (register_fields c0) as (_ & _ & _ & -> & -> & -> & _).
  - intros sid frame c0 (He & Hq & Hs) _. split; [| done].
    rewrite <- He. unfold session_call. by apply (socket_effects_add [_]), Forall_singleton.
Qed.

(** ** Listeners *)

(** X12. After a listener was registered for a name, [dispatch] of that name
    calls the listeners registered for it, in the order of registration and
    the new one last, and never the container; the listeners of other names
    are as before. With no listener for the name, the container is called
    once, with the same name and context. *)
Theorem dispatch_listeners_before_container
    (name : string) (l : nat) (ctx : Context) (c : Connection) :
  dispatch name ctx (on name l c) =
    add_effects (map (fun l' => Emit l' name ctx) (listeners_of name c ++ [l]))
      (on name l c) /\
  (forall name', name' <> name ->
     listeners_of name' (on name l c) = listeners_of name' c) /\
  (forall k,
     listeners_of name c = [] -> container c = Some k ->
     dispatch name ctx c = add_effects [ContainerDispatch k name ctx] c).
Proof.
  assert (listeners_of name (on name l c) = listeners_of name c ++ [l]) as Hl.
  { unfold listeners_of at 1, on. simpl. by rewrite lookup_insert_eq. }
  split_and!.
  - unfold dispatch, emit. rewrite Hl, length_app. simpl.
    by replace (Nat.eqb (length (listeners_of name c) + 1) 0) with false
      by (symmetry; apply Nat.eqb_neq; lia).
  - intros name' Hne. unfold listeners_of, on. simpl.
    by rewrite lookup_insert_ne.
  - intros k Hnone Hk. unfold dispatch. by rewrite Hnone, Hk.
Qed.

(** ** Begin and then the frames of the session *)

(** X13. Once [on_begin] has handled a begin frame, a frame of any of the six
    delegated performatives on the same channel goes to the session that
    received the begin frame, and the handler returns. *)
Theorem begin_then_routed
    (d : Delegated) (f f' : Frame) (c c' : Connection) :
  on_begin f c = Ok c' ->
  channel f' = channel f ->
  exists sid,
    effects c' = effects c ++ [SessionCall sid m_on_begin f] /\
    delegate_to_session d f' c' = Ok (session_call sid (m_on d) f' c').
Proof.
  intros (sid & He & Hr)%on_begin_bind Hch. exists sid. split; [done |].
  unfold delegate_to_session. by rewrite Hch, Hr, lookup_insert_eq.
Qed.

(** ** The session of the policy *)

(** X14. [get_session] always returns a session, and the same one from the
    second call on, which changes nothing. The first call creates it on the
    lowest free local channel and calls its [begin]; a policy that has its
    session is returned as it is. *)
Theorem get_session_once (p : Policy) :
  exists p1 ssn,
    get_session p = Some (p1, ssn) /\
    get_session p1 = Some (p1, ssn) /\
    policy_ssn p1 = Some ssn /\
    (is_Some (policy_ssn p) -> p1 = p) /\
    (policy_ssn p = None ->
     exists i,
       lowest_free i (local_channel_map (policy_conn p)) /\
       ssn = length (sessions (policy_conn p)) /\
       local_channel_map (policy_conn p1) =
         <[i := ssn]> (local_channel_map (policy_conn p)) /\
       sessions (policy_conn p1) =
         sessions (policy_conn p) ++ [ssn_begin (new_Session i)]).
Proof.
  unfold get_session at 1. destruct (policy_ssn p) as [ssn |] eqn:Hp.
  - exists p, ssn. unfold get_session. rewrite Hp. by split_and!.
  - destruct (create_session_spec (policy_conn p)) as (i & Hfree & ->).
    eexists _, _. split; [reflexivity |]. split; [reflexivity |].
    split; [done |]. split; [by intros [? [=]] |]. intros _.
    exists i. split; [done |]. split; [done |]. simpl.
    by rewrite alter_last.
Qed.

Lemma session_attach_fields attach ssn c c' link :
  session_attach attach ssn c = Some (c', link) ->
  local_channel_map c' = local_channel_map c /\
  remote_channel_map c' = remote_channel_map c /\
  length (sessions c') = length (sessions c) /\
  effects c' = effects c /\
  forall other, other <> ssn -> sessions c' !! other = sessions c !! other.
Proof.
  unfold session_attach. destruct (sessions c !! ssn) as [s |]; [| done].
  destruct (attach s) as [s' link']. intros [= <- _]. simpl.
  split_and!; try done; [apply length_insert |].
  intros other Hne. by apply list_lookup_insert_ne.
Qed.


(** ** Sessions and channels *)

(** X17. The turn of the event loop that runs a pass changes neither channel
    map and creates no session, whether the pass returns or throws. *)
Theorem pass_keeps_channel_maps (fuel : nat) (c : Connection) :
  leaves (fun c' => local_channel_map c' = local_channel_map c /\
                    remote_channel_map c' = remote_channel_map c /\
                    length (sessions c') = length (sessions c))
         (fun c' => local_channel_map c' = local_channel_map c /\
                    remote_channel_map c' = remote_channel_map c /\
                    length (sessions c') = length (sessions c))
         (run_tick fuel c).
Proof.
  unfold run_tick, _process. destruct (scheduled c) as [| n]; [done |].
  apply (keeps_process_loop
           (fun c' => local_channel_map c' = local_channel_map c /\
                      remote_channel_map c' = remote_channel_map c /\
                      length (sessions c') = length (sessions c))); try done.
  intros v c0 (Hl & Hr & Hs) Hv. simpl. split_and!; congruence.
Qed.

(** X18. On every connection a program can be in, a session is registered
    under one local channel only: two keys of the local channel map never
    hold the same session. *)
Theorem local_channels_distinct (c : Connection) (k1 k2 sid : nat) :
  reachable c ->
  local_channel_map c !! k1 = Some sid ->
  local_channel_map c !! k2 = Some sid ->
  k1 = k2.
Proof.
  intros Hc. revert k1 k2 sid.
  cut ((forall k sid, local_channel_map c !! k = Some sid ->
          sid < length (sessions c)) /\
       (forall k1 k2 sid,
          local_channel_map c !! k1 = Some sid ->
          local_channel_map c !! k2 = Some sid -> k1 = k2)).
  { intros [_ Hinj]. exact Hinj. }
  revert c Hc.
  apply (reachable_invariant
           (fun c =>
              (forall k sid, local_channel_map c !! k = Some sid ->
                 sid < length (sessions c)) /\
              (forall k1 k2 sid,
                 local_channel_map c !! k1 = Some sid ->
                 local_channel_map c !! k2 = Some sid -> k1 = k2)));
    try done.
  - intros v c0 [Hlt Hinj] Hv. simpl. split; [| done].
    intros k sid Hk. rewrite Hv. by apply (Hlt k).
  - intros i c0 [Hlt Hinj] _. simpl. split.
    + intros k sid. rewrite length_app. simpl.
      destruct (decide (i = k)) as [-> | Hne].
      * rewrite lookup_insert_eq. intros [= <-]. lia.
      * rewrite lookup_insert_ne by done. intros Hk%Hlt. lia.
    + intros k1 k2 sid.
      destruct (decide (i = k1)) as [E1 | Hne1];
        destruct (decide (i = k2)) as [E2 | Hne2]; try subst k1; try subst k2;
        rewrite ?lookup_insert_eq, ?lookup_insert_ne by done; [done | | |].
      * intros [= <-] Hk%Hlt. lia.
      * intros Hk%Hlt [= <-]. lia.
      * apply Hinj.
  - intros c0 Hc0. unfold _register. by destruct (negb _).
  - intros sid frame c0 [Hlt Hinj] _. simpl. split; [| done].
    intros k sid' Hk. rewrite length_alter. by apply (Hlt k).
Qed.

End Further.

(** ** Runs of the further properties *)

(** The header, a begin frame and an end frame on channel 3, and the first
    five bytes of a frame of ten, in one buffer. *)
Lemma input_one_buffer_witness :
  let fs := [wire_frame 3 (performative (begin_frame 3));
             wire_frame 3 (performative (end_frame 3))] in
  let tail := take 5 (wire_frame 0 (performative (end_frame 0))) in
  input 3 (wire_header amqp_1_0 ++ concat fs ++ tail) fresh =
    bind (dispatch_all [begin_frame 3; end_frame 3]
            (set_header_received (Some amqp_1_0) fresh))
      (fun c' => Ok (set_previous_input (Some tail) c')).
Proof.
  intros fs tail.
  assert (unfinished tail) as Ht.
  { intros n Hn. vm_compute in Hn. injection Hn as <-. vm_compute. lia. }
  apply (proj1 (input_one_buffer 3 fs [begin_frame 3; end_frame 3] tail fresh
                  eq_refl
                  ltac:(repeat constructor)
                  ltac:(repeat constructor)
                  Ht
                  ltac:(right; vm_compute; lia)
                  ltac:(vm_compute; lia))
               (wire_header amqp_1_0) amqp_1_0 eq_refl eq_refl eq_refl).
Defined.


(** The header again, on a connection that has one. *)
Lemma header_received_once_witness :
  header_received greeted = Some amqp_1_0 /\
  leaves (fun c' => header_received c' = Some amqp_1_0)
         (fun c' => header_received c' = Some amqp_1_0)
         (exec (call_input 1
                  (wire_header {| protocol_id := 3; major := 1; minor := 0;
                                  revision := 0 |})) greeted).
Proof.
  split; [reflexivity |].
  apply (header_received_once _ amqp_1_0 greeted). reflexivity.
Defined.

(** A second begin frame leaves the first session on its channel. *)
Lemma local_channel_kept_witness :
  local_channel_map after_begin !! 0 = Some 0 /\
  leaves (fun c' => local_channel_map c' !! 0 = Some 0)
         (fun c' => local_channel_map c' !! 0 = Some 0)
         (exec (call_handle (begin_frame 0)) after_begin).
Proof.
  split; [reflexivity |].
  apply (local_channel_kept _ 0 0 after_begin). reflexivity.
Defined.

Lemma reachable_after_begin : reachable after_begin.
Proof.
  apply (reachable_returns (call_handle (begin_frame 0)) fresh);
    [apply reachable_new | vm_compute; reflexivity].
Defined.

Lemma remote_sessions_are_local_witness :
  remote_channel_map after_begin !! 0 = Some 0 /\
  exists k, local_channel_map after_begin !! k = Some 0.
Proof.
  split; [reflexivity |].
  apply (remote_sessions_are_local after_begin 0 0 reachable_after_begin).
  reflexivity.
Defined.

(** The pass of a connection without a socket throws, and is consumed. *)
Lemma run_tick_consumes_witness :
  scheduled (open fresh) = 1 /\
  leaves (fun c' => registered c' = false /\ scheduled c' = 0)
         (fun c' => registered c' = false /\ scheduled c' = 0)
         (run_tick 1 (open fresh)).
Proof.
  split; [reflexivity |].
  apply (proj1 (run_tick_consumes 1 0 (open fresh) eq_refl)).
Defined.

Lemma reachable_accept : reachable (accept 7 fresh).
Proof.
  apply (reachable_returns (call_accept 7) fresh);
    [apply reachable_new | reflexivity].
Defined.

Lemma pass_with_socket_never_throws_witness :
  is_Some (socket (accept 7 fresh)) /\
  leaves (fun c' => is_Some (socket c') /\ is_Some (pending c'))
         (fun _ => False) (run_tick 1 (accept 7 fresh)).
Proof.
  assert (is_Some (socket (accept 7 fresh))) as Hs by (by eexists).
  split; [exact Hs |].
  apply (pass_with_socket_never_throws 1 _ reachable_accept Hs).
Defined.

Lemma output_flushes_in_order_witness :
  socket (accept 7 fresh) = Some 7 /\
  exists q c',
    pending (accept 7 fresh) = Some q /\
    output [x01] (accept 7 fresh) = Ok c' /\
    pending c' = Some [] /\
    effects c' =
      effects (accept 7 fresh) ++ map SocketWrite q ++ [SocketWrite [x01]] ++
      (if is_closed (accept 7 fresh) then [SocketEnd] else []) /\
    forall b2, output b2 c' = Ok (add_effects (wrote (is_closed c') b2) c').
Proof.
  split; [reflexivity |].
  apply (output_flushes_in_order [x01] 7 _ reachable_accept). reflexivity.
Defined.

Lemma clipping_in_place : @writes_in_place clipping_codec.
Proof.
  intros buffer ch frame payload. unfold write_amqp_frame, clipping_codec.
  cbn [fst]. rewrite length_take, length_app, length_drop.
  change (length (wire_frame ch frame)) with 10. lia.
Defined.

Lemma write_frame_at_most_1024_witness :
  exists b,
    length b <= 1024 /\
    @_write_frame clipping_codec _ _ 0 (local_open fresh) None fresh =
      output b fresh.
Proof.
  apply (@write_frame_at_most_1024 clipping_codec _ _ 0 (local_open fresh)
           None fresh clipping_in_place).
Defined.

(** No listener, and a container. *)
Lemma dispatch_listeners_before_container_witness :
  listeners_of "connection_open" contained = [] /\
  dispatch "connection_open"
    {| ctx_connection := "connection-2"; ctx_container := None |} contained =
    add_effects
      [ContainerDispatch {| container_ident := "box" |} "connection_open"
         {| ctx_connection := "connection-2"; ctx_container := None |}]
      contained.
Proof.
  split; [reflexivity |].
  apply (proj2 (proj2 (dispatch_listeners_before_container
                         "connection_open" 0 _ contained))
           {| container_ident := "box" |}); reflexivity.
Defined.

Lemma begin_then_routed_witness :
  exists sid,
    effects after_begin =
      effects fresh ++ [SessionCall sid m_on_begin (begin_frame 0)] /\
    delegate_to_session d_end (end_frame 0) after_begin =
      Ok (session_call sid (m_on d_end) (end_frame 0) after_begin).
Proof.
  apply (begin_then_routed d_end (begin_frame 0) (end_frame 0) fresh after_begin);
    [vm_compute; reflexivity | reflexivity].
Defined.

Lemma get_session_once_witness :
  policy_ssn (session_per_connection fresh) = None /\
  exists p1 ssn,
    get_session (session_per_connection fresh) = Some (p1, ssn) /\
    get_session p1 = Some (p1, ssn) /\
    local_channel_map (policy_conn p1) !! 0 = Some ssn.
Proof.
  split; [reflexivity |].
  destruct (get_session_once (session_per_connection fresh))
    as (p1 & ssn & H1 & H2 & _ & _ & Hnew).
  exists p1, ssn. split; [exact H1 |]. split; [exact H2 |].
  destruct (Hnew eq_refl) as (i & [Hi Hlt] & _ & Hmap & _).
  destruct i as [| i].
  - rewrite Hmap. apply lookup_insert_eq.
  - destruct (Hlt 0 ltac:(lia)) as [x Hx]. vm_compute in Hx. discriminate.
Defined.


Lemma local_channels_distinct_witness :
  local_channel_map after_begin !! 0 = Some 0 /\ 0 = 0.
Proof.
  split; [reflexivity |].
  apply (local_channels_distinct after_begin 0 0 0 reachable_after_begin);
    reflexivity.
Defined.
